(** * providers/common/ciphers/aes.c: the AES-ECB streaming engine

    A shallow embedding of the block-boundary state machine of
    [aes.c] (init / update / final, the padding parameter, creation and
    release of contexts), followed by the properties of the specification.

    Conventions.
    - A C buffer given as pointer and length ([in], [inl]) is the list of
      the bytes that remain to be read; [in += n; inl -= n] is [drop n].
    - [ctx->buf] is a fixed array of [AES_BLOCK_SIZE] bytes together with
      the fill count [ctx->bufsz]; bytes at and after [bufsz] are stale.
    - [ctx->enc] and [ctx->pad] only ever hold 0 or 1 and are only used as
      truth values: they are [bool].
    - Lengths are [nat]: every length is that of a buffer held in memory,
      so no sum in the file reaches [SIZE_MAX].
    - A call runs in a small state monad that carries the context, the bytes
      stored through [out], the value stored in [*outl] and the list of
      inputs handed to [ctx->ciph->cipher]; [return 0] aborts the call and
      keeps the state reached so far. *)

From Stdlib Require Import List Arith Lia Bool ZArith ZifyNat.
From Stdlib Require Import Strings.Byte.
From stdpp Require Import base option list gmap strings.

Set Default Proof Using "Type".

(** ** Bytes and raw memory *)

(** Modelled from the spec: the constant [AES_BLOCK_SIZE] comes from
    [openssl/aes.h], which is not part of the sources here; the spec's
    block size for this algorithm is 16 bytes. *)
Definition AES_BLOCK_SIZE : nat := 16.

(** The cast [(unsigned char) n]. *)
Definition byte_of_nat (n : nat) : byte :=
  default x00 (Byte.of_nat (n mod 256)).

(** [memcpy(dst + off, src, length src)] on an array [dst]. *)
Definition memcpy (dst : list byte) (off : nat) (src : list byte) : list byte :=
  take off dst ++ src ++ drop (off + length src) dst.

(** ** Block helpers (ciphers_locl.h) *)

(** Modelled from the spec: [fillblock] is declared in [ciphers_locl.h] and
    defined outside the sources here.  It is the first half of the block
    accumulator: top up the pending buffer towards a full block with bytes
    from the front of the input, then return the largest multiple of the
    block size that fits in the remaining input.  The result is that
    number, the new buffer, the new fill count and the remaining input. *)
Definition fillblock (buf : list byte) (buflen blocksize : nat) (inp : list byte)
  : nat * list byte * nat * list byte :=
  let bufremain := (blocksize - buflen) `min` length inp in
  let buf' := memcpy buf buflen (take bufremain inp) in
  let inp' := drop bufremain inp in
  (length inp' / blocksize * blocksize, buf', buflen + bufremain, inp').

(** Modelled from the spec: [trailingdata] is declared in [ciphers_locl.h]
    and defined outside the sources here.  It is the second half of the
    block accumulator: whatever input remains after the whole blocks becomes
    pending; the pending buffer never holds more than one block, so input
    that does not fit is a failure ([None]). *)
Definition trailingdata (buf : list byte) (buflen blocksize : nat) (inp : list byte)
  : option (list byte * nat * list byte) :=
  if length inp =? 0 then Some (buf, buflen, inp)
  else if blocksize <? buflen + length inp then None
  else Some (memcpy buf buflen inp, buflen + length inp, []).

(** Modelled from the spec: [padblock] is declared in [ciphers_locl.h] and
    defined outside the sources here.  Pending is padded up to exactly one
    block; each of the [p = blocksize - buflen] pad bytes carries the
    value [p]. *)
Definition padblock (buf : list byte) (buflen blocksize : nat) : list byte * nat :=
  let p := blocksize - buflen in
  (memcpy buf buflen (replicate p (byte_of_nat p)), blocksize).

(** Modelled from the spec: [unpadblock] is declared in [ciphers_locl.h] and
    defined outside the sources here.  The last byte of the block is read as
    the pad length [p]; [p] outside [1 .. blocksize] is rejected, and so is a
    block whose last [p] bytes are not all equal to [p]; otherwise the
    padding is stripped: the fill count becomes [blocksize - p]. *)
Definition unpadblock (buf : list byte) (buflen blocksize : nat) : option nat :=
  let p := Byte.to_nat (nth (blocksize - 1) buf x00) in
  if (p =? 0) || (blocksize <? p) then None
  else if forallb (fun b => Byte.to_nat b =? p)
                  (drop (blocksize - p) (take blocksize buf))
       then Some (blocksize - p)
       else None.

(** ** The context *)

(** [PROV_AES_KEY]: the fields of the context that [aes.c] reads or writes.
    [ks] stands for the key schedule and the rest of the transform state,
    which only the cipher implementation interprets.  A context is
    represented by the value of its fields, with [buf] and [iv] as arrays of
    the structure: this is how the file uses them (one
    [OPENSSL_zalloc(sizeof( *ctx))], [ctx->buf] and [ctx->iv] written without
    any further allocation, one [OPENSSL_clear_free]).  The declaration of
    the structure is in [ciphers_locl.h]. *)
Record PROV_AES_KEY (KS : Type) : Type := mk_PROV_AES_KEY {
  ks : KS;
  mode : nat;
  enc : bool;
  iv : list byte;
  buf : list byte;
  bufsz : nat;
  keylen : nat;
  pad : bool
}.
Arguments mk_PROV_AES_KEY {KS}.
Arguments ks {KS}. Arguments mode {KS}. Arguments enc {KS}. Arguments iv {KS}.
Arguments buf {KS}. Arguments bufsz {KS}. Arguments keylen {KS}. Arguments pad {KS}.

Definition set_ks {KS} (c : PROV_AES_KEY KS) (v : KS) : PROV_AES_KEY KS :=
  mk_PROV_AES_KEY v (mode c) (enc c) (iv c) (buf c) (bufsz c) (keylen c) (pad c).
Definition set_enc {KS} (c : PROV_AES_KEY KS) (v : bool) : PROV_AES_KEY KS :=
  mk_PROV_AES_KEY (ks c) (mode c) v (iv c) (buf c) (bufsz c) (keylen c) (pad c).
Definition set_iv {KS} (c : PROV_AES_KEY KS) (v : list byte) : PROV_AES_KEY KS :=
  mk_PROV_AES_KEY (ks c) (mode c) (enc c) v (buf c) (bufsz c) (keylen c) (pad c).
Definition set_buf {KS} (c : PROV_AES_KEY KS) (v : list byte) : PROV_AES_KEY KS :=
  mk_PROV_AES_KEY (ks c) (mode c) (enc c) (iv c) v (bufsz c) (keylen c) (pad c).
Definition set_bufsz {KS} (c : PROV_AES_KEY KS) (v : nat) : PROV_AES_KEY KS :=
  mk_PROV_AES_KEY (ks c) (mode c) (enc c) (iv c) (buf c) v (keylen c) (pad c).
Definition set_pad {KS} (c : PROV_AES_KEY KS) (v : bool) : PROV_AES_KEY KS :=
  mk_PROV_AES_KEY (ks c) (mode c) (enc c) (iv c) (buf c) (bufsz c) (keylen c) v.

(** The pending bytes: the filled prefix of [ctx->buf]. *)
Definition pending {KS} (c : PROV_AES_KEY KS) : list byte := take (bufsz c) (buf c).

(** [PROV_AES_CIPHER]: the table behind [ctx->ciph], bound by every
    constructor of the file to [PROV_AES_CIPHER_ecb()].  [ciph_init] is the
    key schedule: it reads the context and the key, returns its status and
    the transform state it leaves.  [ciph_cipher ctx in] is
    [cipher(ctx, out, in, len)] with [len = length in]: it may fail, and
    otherwise yields the [len] bytes it stores at [out].  [ks_zero] is the
    transform state of a zero-filled context. *)
Class PROV_AES_CIPHER (KS : Type) : Type := {
  ks_zero : KS;
  ciph_init : PROV_AES_KEY KS -> list byte -> nat -> bool * KS;
  ciph_cipher : PROV_AES_KEY KS -> list byte -> option (list byte);
  ciph_cipher_length :
    forall c x y, ciph_cipher c x = Some y -> length y = length x
}.

(** ** One call: state, abort, and the record of transform calls *)

Record call (KS : Type) : Type := mk_call {
  c_ctx : PROV_AES_KEY KS;      (* the context behind [vctx] *)
  c_out : list byte;            (* bytes stored through [out], in order *)
  c_outl : option nat;          (* [*outl], [None] while not stored *)
  c_log : list (list byte)      (* inputs handed to [ctx->ciph->cipher] *)
}.
Arguments mk_call {KS}.
Arguments c_ctx {KS}. Arguments c_out {KS}. Arguments c_outl {KS}. Arguments c_log {KS}.

(** A computation either returns a value or aborts ([return 0]); in both
    cases the state it reached is kept. *)
Definition M (KS A : Type) : Type := call KS -> option A * call KS.

Definition ret {KS A} (a : A) : M KS A := fun s => (Some a, s).
Definition bindM {KS A B} (m : M KS A) (k : A -> M KS B) : M KS B :=
  fun s => match m s with
           | (Some a, s') => k a s'
           | (None, s') => (None, s')
           end.
Definition return0 {KS A} : M KS A := fun s => (None, s).

#[global] Instance M_ret {KS} : MRet (M KS) := fun A a => ret a.
#[global] Instance M_bind {KS} : MBind (M KS) := fun A B k m => bindM m k.

Definition get_ctx {KS} : M KS (PROV_AES_KEY KS) := fun s => (Some (c_ctx s), s).
Definition put_ctx {KS} (c : PROV_AES_KEY KS) : M KS unit :=
  fun s => (Some tt, mk_call c (c_out s) (c_outl s) (c_log s)).
Definition write_out {KS} (bs : list byte) : M KS unit :=
  fun s => (Some tt, mk_call (c_ctx s) (c_out s ++ bs) (c_outl s) (c_log s)).
Definition store_outl {KS} (n : nat) : M KS unit :=
  fun s => (Some tt, mk_call (c_ctx s) (c_out s) (Some n) (c_log s)).
(** [if (!e) return 0;] *)
Definition require {KS} (e : bool) : M KS unit := if e then ret tt else return0.
(** [ossl_assert(e)] as used in [if (!ossl_assert(e)) return 0;]. *)
Definition ossl_assert {KS} (e : bool) : M KS unit := require e.

(** [if (!ctx->ciph->cipher(ctx, dst, in, len)) return 0;] The input is
    recorded, then the transform runs on the current context; its output
    is returned for the caller to store at [dst]. *)
Definition cipher_call {KS} `{PROV_AES_CIPHER KS} (inp : list byte) : M KS (list byte) :=
  fun s =>
    let s' := mk_call (c_ctx s) (c_out s) (c_outl s) (c_log s ++ [inp]) in
    match ciph_cipher (c_ctx s) inp with
    | Some o => (Some o, s')
    | None => (None, s')
    end.

(** The state in which a call starts on context [c]. *)
Definition enter {KS} (c : PROV_AES_KEY KS) : call KS := mk_call c [] None [].

(** What the caller observes of a finished call. *)
Definition retval {KS A} (r : option A * call KS) : bool := bool_decide (is_Some (fst r)).
Definition ctx_of {KS A} (r : option A * call KS) : PROV_AES_KEY KS := c_ctx (snd r).
Definition out_of {KS A} (r : option A * call KS) : list byte := c_out (snd r).
Definition outl_of {KS A} (r : option A * call KS) : option nat := c_outl (snd r).
Definition log_of {KS A} (r : option A * call KS) : list (list byte) := c_log (snd r).

(** ** aes.c *)

Section aes.
Context {KS : Type} `{PROV_AES_CIPHER KS}.

Definition PROV_AES_KEY_generic_init (ctx : PROV_AES_KEY KS)
    (iv_arg : option (list byte)) (enc_arg : bool) : PROV_AES_KEY KS :=
  let ctx := match iv_arg with
             | Some v => set_iv ctx (memcpy (iv ctx) 0 (take AES_BLOCK_SIZE v))
             | None => ctx
             end in
  set_enc ctx enc_arg.

(** [aes_einit] and [aes_dinit]: [None] is a null [key] or [iv]; the result
    is the status and the context afterwards. *)
Definition aes_einit (ctx : PROV_AES_KEY KS) (key iv_arg : option (list byte))
  : bool * PROV_AES_KEY KS :=
  let ctx := PROV_AES_KEY_generic_init ctx iv_arg true in
  match key with
  | Some k => let '(r, s) := ciph_init ctx k (keylen ctx) in (r, set_ks ctx s)
  | None => (true, ctx)
  end.

Definition aes_dinit (ctx : PROV_AES_KEY KS) (key iv_arg : option (list byte))
  : bool * PROV_AES_KEY KS :=
  let ctx := PROV_AES_KEY_generic_init ctx iv_arg false in
  match key with
  | Some k => let '(r, s) := ciph_init ctx k (keylen ctx) in (r, set_ks ctx s)
  | None => (true, ctx)
  end.

(** [aes_update(vctx, out, outl, in, inl)]; [inp] is [in] with [inl] its
    length, rebound as the C code advances [in]. *)
Definition aes_update (inp : list byte) : M KS unit :=
  ctx ← get_ctx;
  let '(nextblocks, buf1, bufsz1, inp) :=
    fillblock (buf ctx) (bufsz ctx) AES_BLOCK_SIZE inp in
  put_ctx (set_bufsz (set_buf ctx buf1) bufsz1) ;;
  ctx ← get_ctx;
  outlint ←
    (if (bufsz ctx =? AES_BLOCK_SIZE)
        && (enc ctx || (0 <? length inp) || negb (pad ctx))
     then
       o ← cipher_call (take AES_BLOCK_SIZE (buf ctx));
       write_out o ;;
       put_ctx (set_bufsz ctx 0) ;;
       ret AES_BLOCK_SIZE
     else ret 0);
  ctx ← get_ctx;
  '(outlint, inp) ←
    (if 0 <? nextblocks then
       nextblocks ←
         (if negb (enc ctx) && pad ctx && (nextblocks =? length inp) then
            ossl_assert (AES_BLOCK_SIZE <=? length inp) ;;
            ret (nextblocks - AES_BLOCK_SIZE)
          else ret nextblocks);
       o ← cipher_call (take nextblocks inp);
       write_out o ;;
       ret (outlint + nextblocks, drop nextblocks inp)
     else ret (outlint, inp));
  ctx ← get_ctx;
  match trailingdata (buf ctx) (bufsz ctx) AES_BLOCK_SIZE inp with
  | None => return0
  | Some (buf2, bufsz2, inp) =>
      put_ctx (set_bufsz (set_buf ctx buf2) bufsz2) ;;
      store_outl outlint ;;
      require (length inp =? 0)
  end.

(** [aes_final(vctx, out, outl)].  On the encrypt path [proceed] is false
    after the early [return 1] of the unpadded, empty case and true where
    the C code falls through to the transform call.  When decrypting, the
    transform writes to [ctx->buf] itself. *)
Definition aes_final : M KS unit :=
  ctx ← get_ctx;
  if enc ctx then
    proceed ←
      (if pad ctx then
         let '(b, n) := padblock (buf ctx) (bufsz ctx) AES_BLOCK_SIZE in
         put_ctx (set_bufsz (set_buf ctx b) n) ;;
         ret true
       else if bufsz ctx =? 0 then
         store_outl 0 ;;
         ret false
       else if negb (bufsz ctx =? AES_BLOCK_SIZE) then
         return0
       else ret true);
    if proceed : bool then
      ctx ← get_ctx;
      o ← cipher_call (take AES_BLOCK_SIZE (buf ctx));
      write_out o ;;
      put_ctx (set_bufsz ctx 0) ;;
      store_outl AES_BLOCK_SIZE
    else ret tt
  else
    (* Decrypting *)
    if negb (bufsz ctx =? AES_BLOCK_SIZE) then
      if (bufsz ctx =? 0) && negb (pad ctx) then store_outl 0
      else return0
    else
      o ← cipher_call (take AES_BLOCK_SIZE (buf ctx));
      put_ctx (set_buf ctx (memcpy (buf ctx) 0 o)) ;;
      ctx ← get_ctx;
      (if pad ctx then
         match unpadblock (buf ctx) (bufsz ctx) AES_BLOCK_SIZE with
         | Some n => put_ctx (set_bufsz ctx n)
         | None => return0
         end
       else ret tt) ;;
      ctx ← get_ctx;
      write_out (take (bufsz ctx) (buf ctx)) ;;
      store_outl (bufsz ctx) ;;
      put_ctx (set_bufsz ctx 0).

(** [EVP_CIPH_ECB_MODE] of [openssl/evp.h]. *)
Definition EVP_CIPH_ECB_MODE : nat := 1.

(** [OPENSSL_zalloc(sizeof( *ctx))]: every field zero. *)
Definition zalloc_ctx : PROV_AES_KEY KS :=
  mk_PROV_AES_KEY ks_zero 0 false (replicate AES_BLOCK_SIZE x00)
                  (replicate AES_BLOCK_SIZE x00) 0 0 false.

Definition newctx (bits : nat) : PROV_AES_KEY KS :=
  let ctx := zalloc_ctx in
  mk_PROV_AES_KEY (ks ctx) EVP_CIPH_ECB_MODE (enc ctx) (iv ctx) (buf ctx)
                  (bufsz ctx) (bits / 8) true.

Definition aes_256_ecb_newctx : PROV_AES_KEY KS := newctx 256.
Definition aes_192_ecb_newctx : PROV_AES_KEY KS := newctx 192.
Definition aes_128_ecb_newctx : PROV_AES_KEY KS := newctx 128.

Definition key_length_256 : nat := 256 / 8.
Definition key_length_192 : nat := 192 / 8.
Definition key_length_128 : nat := 128 / 8.

End aes.

(** ** Well-formed contexts and whole streams *)

(** The representation invariant of a context: [buf] is the
    [AES_BLOCK_SIZE]-byte array and the fill count stays within it. *)
Definition wf {KS} (c : PROV_AES_KEY KS) : Prop :=
  length (buf c) = AES_BLOCK_SIZE /\ bufsz c <= AES_BLOCK_SIZE.

(** A length is a whole number of blocks. *)
Definition aligned (x : list byte) : Prop := length x mod AES_BLOCK_SIZE = 0.

(** [c'] differs from [c] at most in the pending buffer and its count. *)
Definition same_stream {KS} (c c' : PROV_AES_KEY KS) : Prop :=
  ks c' = ks c /\ mode c' = mode c /\ enc c' = enc c /\ iv c' = iv c /\
  keylen c' = keylen c /\ pad c' = pad c.

(** The pad length announced by the last byte of a block, and the validity
    of the padding: the length is in [1 .. AES_BLOCK_SIZE] and each of the
    last [p] bytes is [p]. *)
Definition pad_length (blk : list byte) : nat :=
  Byte.to_nat (nth (AES_BLOCK_SIZE - 1) blk x00).
Definition valid_padding (blk : list byte) : Prop :=
  1 <= pad_length blk <= AES_BLOCK_SIZE /\
  drop (AES_BLOCK_SIZE - pad_length blk) blk
    = replicate (pad_length blk) (byte_of_nat (pad_length blk)).

#[global] Instance byte_eq_dec : EqDecision byte.
Proof.
  intros x y. destruct (Byte.eqb x y) eqn:E.
  - left. by apply Byte.byte_dec_bl.
  - right. by apply Byte.eqb_false.
Defined.

#[global] Instance valid_padding_dec blk : Decision (valid_padding blk).
Proof. unfold valid_padding. apply _. Defined.

(** A padded decrypt stream holds a full block back. *)
Definition holdback {KS} (c : PROV_AES_KEY KS) : bool := negb (enc c) && pad c.

(** The number of bytes one [update] hands to the transform when [n] bytes
    are available (pending plus input): every whole block, except that a
    stream that holds back keeps the last block (whole or partial). *)
Definition nflush (hold : bool) (n : nat) : nat :=
  if hold then (n - 1) / AES_BLOCK_SIZE * AES_BLOCK_SIZE
  else n / AES_BLOCK_SIZE * AES_BLOCK_SIZE.

(** The bytes a caller takes from [out] after a call: the first [*outl]. *)
Definition emitted {KS A} (r : option A * call KS) : list byte :=
  take (default 0 (outl_of r)) (out_of r).

Section streams.
Context {KS : Type} `{PROV_AES_CIPHER KS}.

(** What one transform call of the stream did: the transform ran on a
    context of the same stream and stored [o]. *)
Definition transformed (c : PROV_AES_KEY KS) (x o : list byte) : Prop :=
  exists c', same_stream c c' /\ ciph_cipher c' x = Some o.

(** Every input byte of an [update] was passed through the transform or is
    retained: the inputs of some initial part of the transform calls,
    followed by the new pending bytes, are the old pending bytes followed
    by the input. *)
Definition accounted (c : PROV_AES_KEY KS) (inp : list byte)
    (r : option unit * call KS) : Prop :=
  exists l, l `prefix_of` log_of r /\
            concat l ++ pending (ctx_of r) = pending c ++ inp.

(** The result of a call that succeeds, emits nothing and changes nothing. *)
Definition no_op (c : PROV_AES_KEY KS) : option unit * call KS :=
  (Some tt, mk_call c [] (Some 0) []).

(** A caller feeding [chunks] through successive [update] calls and
    collecting the output; [None] as soon as a call returns 0.  The third
    component collects the inputs handed to the transform. *)
Fixpoint stream_updates (c : PROV_AES_KEY KS) (chunks : list (list byte))
  : option (PROV_AES_KEY KS * list byte * list (list byte)) :=
  match chunks with
  | [] => Some (c, [], [])
  | x :: xs =>
      let r := aes_update x (enter c) in
      if retval r then
        '(c', o, l) ← stream_updates (ctx_of r) xs;
        Some (c', emitted r ++ o, log_of r ++ l)
      else None
  end.

(** The updates followed by [final]: the output of the stream and the
    inputs handed to the transform. *)
Definition stream_run (c : PROV_AES_KEY KS) (chunks : list (list byte))
  : option (list byte * list (list byte)) :=
  '(c', o, l) ← stream_updates c chunks;
  let r := aes_final (enter c') in
  if retval r then Some (o ++ emitted r, l ++ log_of r) else None.

(** [encrypt_init], the updates, [final]; the result is the ciphertext. *)
Definition encrypt (c : PROV_AES_KEY KS) (key iv_arg : option (list byte))
    (chunks : list (list byte)) : option (list byte) :=
  let '(ok, c') := aes_einit c key iv_arg in
  if ok : bool then fst <$> stream_run c' chunks else None.

(** [decrypt_init], the updates, [final]; the result is the plaintext. *)
Definition decrypt (c : PROV_AES_KEY KS) (key iv_arg : option (list byte))
    (chunks : list (list byte)) : option (list byte) :=
  let '(ok, c') := aes_dinit c key iv_arg in
  if ok : bool then fst <$> stream_run c' chunks else None.

End streams.

(** ** Parameters *)

(** Modelled from the spec: the generic key/value parameter surface
    ([OSSL_PARAM], [openssl/params.h]) is not part of the sources here.  A
    parameter has a name; [OSSL_PARAM_get_int] converts its value to an
    [int] or fails, [OSSL_PARAM_set_uint] stores an unsigned value in it or
    fails.  Which types convert is left to the implementation. *)
Class OSSL_PARAM_API (P : Type) : Type := {
  param_key : P -> string;
  OSSL_PARAM_get_int : P -> option Z;
  OSSL_PARAM_set_uint : P -> Z -> option P
}.

Definition OSSL_CIPHER_PARAM_PADDING : string := "padding".

(** Modelled from the spec: [OSSL_PARAM_locate] finds the parameter named
    [k] in the array; the result is its index and the parameter, [None] for
    the null pointer. *)
Fixpoint OSSL_PARAM_locate {P} `{OSSL_PARAM_API P} (params : list P) (k : string)
  : option (nat * P) :=
  match params with
  | [] => None
  | p :: ps =>
      if String.eqb (param_key p) k then Some (0, p)
      else '(i, q) ← OSSL_PARAM_locate ps k; Some (S i, q)
  end.

Section params.
Context {KS P : Type} `{OSSL_PARAM_API P}.

(** The parameter array is caller memory that [OSSL_PARAM_set_uint] writes
    to: the call returns its status and the array afterwards. *)
Definition aes_get_params (ctx : PROV_AES_KEY KS) (params : list P)
  : bool * list P :=
  match OSSL_PARAM_locate params OSSL_CIPHER_PARAM_PADDING with
  | Some (i, p) =>
      match OSSL_PARAM_set_uint p (Z.b2z (pad ctx)) with
      | Some p' => (true, <[i := p']> params)
      | None => (false, params)
      end
  | None => (true, params)
  end.

Definition aes_set_params (ctx : PROV_AES_KEY KS) (params : list P)
  : bool * PROV_AES_KEY KS :=
  match OSSL_PARAM_locate params OSSL_CIPHER_PARAM_PADDING with
  | Some (_, p) =>
      match OSSL_PARAM_get_int p with
      | None => (false, ctx)
      | Some v => (true, set_pad ctx (negb (v =? 0)%Z))
      end
  | None => (true, ctx)
  end.

End params.

(** ** Sequences of calls on one context *)

Inductive api_call (P : Type) : Type :=
  | call_einit (key iv_arg : option (list byte))
  | call_dinit (key iv_arg : option (list byte))
  | call_update (inp : list byte)
  | call_final
  | call_get_params (params : list P)
  | call_set_params (params : list P).
Arguments call_einit {P}. Arguments call_dinit {P}. Arguments call_update {P}.
Arguments call_final {P}. Arguments call_get_params {P}. Arguments call_set_params {P}.

Section calls.
Context {KS P : Type} `{PROV_AES_CIPHER KS} `{OSSL_PARAM_API P}.

(** The context left behind by one call, whatever it returned. *)
Definition api_step (c : PROV_AES_KEY KS) (a : api_call P) : PROV_AES_KEY KS :=
  match a with
  | call_einit key iv_arg => snd (aes_einit c key iv_arg)
  | call_dinit key iv_arg => snd (aes_dinit c key iv_arg)
  | call_update inp => ctx_of (aes_update inp (enter c))
  | call_final => ctx_of (aes_final (enter c))
  | call_get_params _ => c
  | call_set_params params => snd (aes_set_params c params)
  end.

Definition api_run (c : PROV_AES_KEY KS) (calls : list (api_call P)) : PROV_AES_KEY KS :=
  fold_left api_step calls c.

(** The contexts a caller can reach from a constructor of the file. *)
Inductive reachable : PROV_AES_KEY KS -> Prop :=
  | reach_new bits : In bits [128; 192; 256] -> reachable (newctx bits)
  | reach_step c a : reachable c -> reachable (api_step c a).

(** ** Contexts in memory *)

(** The heap maps the address of each live context to its contents.
    [OPENSSL_malloc] is taken to succeed (the file does not test its
    result) and returns an address that is not in use. *)
Definition OPENSSL_malloc (σ : gmap positive (PROV_AES_KEY KS)) : positive :=
  fresh (dom σ).

(** [*ret = *in]: the fields of the structure are copied to the new
    address.  [None] when [ctx] is not a live context.  A context being the
    value of its fields here, the heap says which contexts are live and
    what each holds; it does not say where the storage behind a field
    lies, which the declaration of the structure decides. *)
Definition aes_dupctx (σ : gmap positive (PROV_AES_KEY KS)) (ctx : positive)
  : option (positive * gmap positive (PROV_AES_KEY KS)) :=
  in_ ← σ !! ctx;
  let ret := OPENSSL_malloc σ in
  Some (ret, <[ret := in_]> σ).

Definition aes_freectx (σ : gmap positive (PROV_AES_KEY KS)) (ctx : positive)
  : gmap positive (PROV_AES_KEY KS) :=
  delete ctx σ.

End calls.

(** ** A small cipher and parameter type to run the code on *)

(** A byte-wise involution standing for the block transform. *)
Definition toy_flip (b : byte) : byte := byte_of_nat (255 - Byte.to_nat b).

Lemma toy_length (c : PROV_AES_KEY bool) (x y : list byte) :
  (if ks c then Some (map toy_flip x) else None) = Some y -> length y = length x.
Proof. destruct (ks c); [|done]. intros [= <-]. apply length_map. Qed.

(** The transform state is whether a key has been set; [init] accepts a key
    of the context's key length; the transform fails without a key. *)
#[global] Instance toy_cipher : PROV_AES_CIPHER bool :=
  {| ks_zero := false;
     ciph_init := fun c key kl => (length key =? kl, length key =? kl);
     ciph_cipher := fun c x => if ks c then Some (map toy_flip x) else None;
     ciph_cipher_length := toy_length |}.

Inductive toy_param : Type :=
  | toy_int (k : string) (v : Z)
  | toy_utf8 (k : string) (s : string).

#[global] Instance toy_params : OSSL_PARAM_API toy_param :=
  {| param_key := fun p => match p with toy_int k _ | toy_utf8 k _ => k end;
     OSSL_PARAM_get_int := fun p => match p with toy_int _ v => Some v | toy_utf8 _ _ => None end;
     OSSL_PARAM_set_uint := fun p v =>
       match p with toy_int k _ => Some (toy_int k v) | toy_utf8 _ _ => None end |}.

(** Concrete contexts and inputs on the small cipher. *)
Definition toy_key : list byte := replicate 16 x01.
Definition toy_new : PROV_AES_KEY bool := aes_128_ecb_newctx.
Definition toy_enc : PROV_AES_KEY bool := snd (aes_einit toy_new (Some toy_key) None).
Definition toy_dec : PROV_AES_KEY bool := snd (aes_dinit toy_new (Some toy_key) None).
Definition hello : list byte := [x48; x45; x4c; x4c; x4f].
Definition toy_block : list byte := replicate 16 x07.
(** A decrypt context holding [toy_block] back. *)
Definition toy_held : PROV_AES_KEY bool := ctx_of (aes_update toy_block (enter toy_dec)).
(** An encrypt context on which no key was ever set, after a first
    [update] of five bytes (which needs no transform call). *)
Definition toy_unkeyed : PROV_AES_KEY bool :=
  ctx_of (aes_update hello (enter (snd (aes_einit toy_new None None)))).
Definition toy_more : list byte := replicate 11 x09.
(** A decrypt stream that held a block back, re-initialised for encryption. *)
Definition toy_redirected_calls : list (api_call toy_param) :=
  [call_dinit (Some toy_key) None; call_update toy_block; call_einit None None].
Definition toy_redirected : PROV_AES_KEY bool := api_run toy_new toy_redirected_calls.
Definition toy_param_list : list toy_param :=
  [toy_utf8 "mode" "ecb"; toy_int "padding" 0; toy_utf8 "padding" "no"].

(** The same contexts with padding switched off, and an encrypt context
    with five bytes pending. *)
Definition toy_enc_raw : PROV_AES_KEY bool :=
  snd (aes_set_params toy_enc [toy_int "padding" 0]).
Definition toy_dec_raw : PROV_AES_KEY bool :=
  snd (aes_set_params toy_dec [toy_int "padding" 0]).
Definition toy_partial : PROV_AES_KEY bool :=
  ctx_of (aes_update hello (enter toy_enc)).

(** * Properties *)

(** Linear arithmetic with the block size unfolded and division by it. *)
Ltac blia :=
  change AES_BLOCK_SIZE with 16 in *; zify; Z.to_euclidean_division_equations; lia.

(** ** Raw memory *)

Lemma length_memcpy dst off src :
  off + length src <= length dst -> length (memcpy dst off src) = length dst.
Proof.
  intros Hle. unfold memcpy.
  rewrite !length_app, length_take, length_drop. lia.
Qed.

Lemma take_memcpy dst off src :
  off <= length dst -> take (off + length src) (memcpy dst off src) = take off dst ++ src.
Proof.
  intros Hle. unfold memcpy.
  rewrite take_app_add' by (rewrite length_take; lia).
  by rewrite take_app_length.
Qed.

Lemma memcpy_whole dst src : length src = length dst -> memcpy dst 0 src = src.
Proof.
  intros Hlen. unfold memcpy. simpl.
  rewrite drop_ge by lia. apply app_nil_r.
Qed.

Lemma split_at {A} (a b d : list A) k :
  a ++ b = d -> length a = k -> a = take k d /\ b = drop k d.
Proof.
  intros <- <-. by rewrite take_app_length, drop_app_length.
Qed.

(** ** The block accumulator *)

Lemma fillblock_spec buf0 n0 inp nb buf1 n1 rest :
  length buf0 = AES_BLOCK_SIZE -> n0 <= AES_BLOCK_SIZE ->
  fillblock buf0 n0 AES_BLOCK_SIZE inp = (nb, buf1, n1, rest) ->
  length buf1 = AES_BLOCK_SIZE /\ n1 <= AES_BLOCK_SIZE /\
  take n1 buf1 ++ rest = take n0 buf0 ++ inp /\
  (n1 = AES_BLOCK_SIZE \/ rest = []) /\
  n1 + length rest = n0 + length inp /\
  nb = length rest / AES_BLOCK_SIZE * AES_BLOCK_SIZE.
Proof.
  intros Hlen Hle. unfold fillblock. intros [= <- <- <- <-].
  set (t := (AES_BLOCK_SIZE - n0) `min` length inp).
  assert (Ht : length (take t inp) = t) by (rewrite length_take; lia).
  split_and!.
  - rewrite length_memcpy; [done | lia].
  - lia.
  - rewrite <- Ht at 1. rewrite take_memcpy by lia.
    by rewrite <- app_assoc, take_drop.
  - destruct (decide (n0 + t = AES_BLOCK_SIZE)) as [|Hne]; [by left | right].
    apply nil_length_inv. rewrite length_drop. lia.
  - rewrite length_drop. lia.
  - done.
Qed.

Lemma trailingdata_spec buf0 n0 rest :
  length buf0 = AES_BLOCK_SIZE -> n0 + length rest <= AES_BLOCK_SIZE ->
  exists buf1,
    trailingdata buf0 n0 AES_BLOCK_SIZE rest = Some (buf1, n0 + length rest, []) /\
    length buf1 = AES_BLOCK_SIZE /\
    take (n0 + length rest) buf1 = take n0 buf0 ++ rest.
Proof.
  intros Hlen Hle. unfold trailingdata.
  destruct (length rest =? 0) eqn:Hz.
  - apply Nat.eqb_eq in Hz. apply nil_length_inv in Hz as ->. simpl.
    rewrite Nat.add_0_r, app_nil_r. eauto.
  - destruct (AES_BLOCK_SIZE <? n0 + length rest) eqn:Hlt.
    { apply Nat.ltb_lt in Hlt. lia. }
    eexists. split_and!; [done | |].
    + rewrite length_memcpy; lia.
    + apply take_memcpy. lia.
Qed.

Lemma trailingdata_wf buf0 n0 rest buf1 n1 rest1 :
  length buf0 = AES_BLOCK_SIZE -> n0 <= AES_BLOCK_SIZE ->
  trailingdata buf0 n0 AES_BLOCK_SIZE rest = Some (buf1, n1, rest1) ->
  length buf1 = AES_BLOCK_SIZE /\ n1 <= AES_BLOCK_SIZE.
Proof.
  intros Hlen Hle. unfold trailingdata.
  destruct (length rest =? 0); [by intros [= <- <- <-]|].
  destruct (AES_BLOCK_SIZE <? n0 + length rest) eqn:Hlt; [done|].
  apply Nat.ltb_ge in Hlt. intros [= <- <- <-].
  rewrite length_memcpy; lia.
Qed.

Lemma memcpy_nil dst off : memcpy dst off [] = dst.
Proof. unfold memcpy. simpl. by rewrite Nat.add_0_r, take_drop. Qed.

(** ** The padding codec *)

Lemma to_nat_byte_of_nat n : n < 256 -> Byte.to_nat (byte_of_nat n) = n.
Proof.
  intros Hn. unfold byte_of_nat. rewrite Nat.mod_small by done.
  destruct (Byte.of_nat n) as [b|] eqn:Hb.
  - by apply Byte.to_of_nat.
  - apply Byte.of_nat_None_iff in Hb. lia.
Qed.

Lemma byte_of_to_nat b : byte_of_nat (Byte.to_nat b) = b.
Proof.
  unfold byte_of_nat. pose proof (Byte.to_nat_bounded b).
  rewrite Nat.mod_small by lia. by rewrite Byte.of_to_nat.
Qed.

Lemma forallb_pad_value p (l : list byte) :
  p < 256 ->
  forallb (fun b => Byte.to_nat b =? p) l = true <->
  l = replicate (length l) (byte_of_nat p).
Proof.
  intros Hp. induction l as [|b l IH]; simpl; [done|].
  rewrite andb_true_iff, IH, Nat.eqb_eq. split.
  - intros [Hb Hl]. rewrite <- Hl. f_equal. by rewrite <- Hb, byte_of_to_nat.
  - intros [= Hb Hl]. split; [|done].
    rewrite Hb. by apply to_nat_byte_of_nat.
Qed.

Lemma padblock_spec buf0 n :
  length buf0 = AES_BLOCK_SIZE -> n <= AES_BLOCK_SIZE ->
  padblock buf0 n AES_BLOCK_SIZE =
    (take n buf0 ++ replicate (AES_BLOCK_SIZE - n) (byte_of_nat (AES_BLOCK_SIZE - n)),
     AES_BLOCK_SIZE).
Proof.
  intros Hlen Hle. unfold padblock, memcpy. f_equal.
  rewrite length_replicate, drop_ge by lia. by rewrite app_nil_r.
Qed.

Lemma unpadblock_spec b n m :
  length b = AES_BLOCK_SIZE ->
  unpadblock b n AES_BLOCK_SIZE = Some m <->
  let p := Byte.to_nat (nth (AES_BLOCK_SIZE - 1) b x00) in
  1 <= p <= AES_BLOCK_SIZE /\ m = AES_BLOCK_SIZE - p /\
  drop (AES_BLOCK_SIZE - p) b = replicate p (byte_of_nat p).
Proof.
  intros Hlen. unfold unpadblock. cbv zeta.
  set (p := Byte.to_nat (nth (AES_BLOCK_SIZE - 1) b x00)).
  assert (Hp : p < 256) by (pose proof (Byte.to_nat_bounded (nth (AES_BLOCK_SIZE - 1) b x00)); lia).
  rewrite (take_ge b) by lia.
  destruct ((p =? 0) || (AES_BLOCK_SIZE <? p)) eqn:Hrange.
  - split; [done|]. intros (Hr & _).
    apply orb_true_iff in Hrange as [Hz%Nat.eqb_eq | Hgt%Nat.ltb_lt]; lia.
  - apply orb_false_iff in Hrange as [Hz%Nat.eqb_neq Hgt%Nat.ltb_ge].
    assert (Hdl : length (drop (AES_BLOCK_SIZE - p) b) = p) by (rewrite length_drop; lia).
    destruct (forallb _ _) eqn:Hall.
    + apply forallb_pad_value in Hall; [|done]. rewrite Hdl in Hall.
      split; [intros [= <-]; split_and!; [lia | lia | done | done]|].
      by intros (_ & -> & _).
    + split; [done|]. intros (_ & _ & Heq).
      assert (forallb (fun b0 => Byte.to_nat b0 =? p) (drop (AES_BLOCK_SIZE - p) b) = true)
        as Hyes; [|congruence].
      apply forallb_pad_value; [done|]. by rewrite Hdl.
Qed.

Lemma fillblock_nil buf0 n :
  fillblock buf0 n AES_BLOCK_SIZE [] = (0, buf0, n, []).
Proof.
  unfold fillblock. cbv zeta.
  rewrite Nat.min_0_r, Nat.add_0_r, take_0, drop_0, memcpy_nil. done.
Qed.

Lemma fillblock_full buf0 inp :
  fillblock buf0 AES_BLOCK_SIZE AES_BLOCK_SIZE inp =
    (length inp / AES_BLOCK_SIZE * AES_BLOCK_SIZE, buf0, AES_BLOCK_SIZE, inp).
Proof.
  unfold fillblock. cbv zeta.
  by rewrite Nat.sub_diag, Nat.min_0_l, Nat.add_0_r, take_0, drop_0, memcpy_nil.
Qed.

Lemma trailingdata_nil buf0 n :
  trailingdata buf0 n AES_BLOCK_SIZE [] = Some (buf0, n, []).
Proof. done. Qed.

(** ** Arithmetic of whole blocks *)

Lemma nflush_le h n : nflush h n <= n.
Proof. unfold nflush. destruct h; blia. Qed.

Lemma nflush_aligned h n : nflush h n mod AES_BLOCK_SIZE = 0.
Proof. unfold nflush. destruct h; blia. Qed.

Lemma nflush_compose h n m :
  nflush h (n + m) = nflush h n + nflush h (n - nflush h n + m).
Proof. unfold nflush. destruct h; blia. Qed.

Lemma take_compose {A} (d e : list A) k1 k2 :
  k1 <= length d ->
  take (k1 + k2) (d ++ e) = take k1 d ++ take k2 (drop k1 d ++ e).
Proof.
  intros Hk. rewrite <- (take_drop k1 d) at 1. rewrite <- app_assoc.
  apply take_app_add'. rewrite length_take. lia.
Qed.

Lemma drop_compose {A} (d e : list A) k1 k2 :
  k1 <= length d ->
  drop (k1 + k2) (d ++ e) = drop k2 (drop k1 d ++ e).
Proof.
  intros Hk. rewrite <- (take_drop k1 d) at 1. rewrite <- app_assoc.
  apply drop_app_add'. rewrite length_take. lia.
Qed.

(** From here on the helpers are used through their specifications. *)
Opaque AES_BLOCK_SIZE fillblock trailingdata padblock unpadblock memcpy.

(** ** update *)

Section update.
Context {KS : Type} `{PROV_AES_CIPHER KS}.
Implicit Types c : PROV_AES_KEY KS.

Lemma same_stream_refl c : same_stream c c.
Proof. by repeat split. Qed.

Ltac run_tail Hr buf2 Hlen2 Htk :=
  match type of Hr with
  | _ = match trailingdata ?b ?n _ ?x with _ => _ end _ =>
      let Htd := fresh "Htd" in
      destruct (trailingdata_spec b n x) as (buf2 & Htd & Hlen2 & Htk);
      [ | | rewrite Htd in Hr; simpl in Hr; subst;
          unfold ret, retval, ctx_of, out_of, outl_of, log_of; simpl; simpl in Htk ]
  end.

Ltac some_call := eexists; split; [ | eassumption ]; by repeat split.

Lemma aes_update_cases c inp :
  wf c ->
  let r := aes_update inp (enter c) in
  let data := pending c ++ inp in
  let k := nflush (holdback c) (length data) in
  wf (ctx_of r) /\ same_stream c (ctx_of r) /\ Forall aligned (log_of r) /\
  (exists tail, concat (log_of r) ++ tail = data /\
                (holdback c = true -> data <> [] -> tail <> [])) /\
  ((retval r = true /\
    concat (log_of r) ++ pending (ctx_of r) = data /\
    length (concat (log_of r)) = k /\
    outl_of r = Some k /\
    exists outs, Forall2 (transformed c) (log_of r) outs /\ out_of r = concat outs)
   \/
   (retval r = false /\
    exists x c', last (log_of r) = Some x /\ same_stream c c' /\ ciph_cipher c' x = None)).
Proof.
  intros [Hlen Hle] r data k. subst data k.
  remember r as r' eqn:Hr. subst r. rename r' into r.
  unfold aes_update, mbind, M_bind, bindM in Hr. simpl in Hr.
  destruct (fillblock _ _ _ _) as [[[nb buf1] n1] rest] eqn:Hfb.
  destruct (fillblock_spec _ _ _ _ _ _ _ Hlen Hle Hfb)
    as (Hlen1 & Hle1 & Hdata & Hfull & Hsum & Hnb).
  unfold pending, holdback, nflush, wf, aligned. rewrite <- Hdata.
  assert (Hn : length (take n1 buf1 ++ rest) = n1 + length rest).
  { rewrite length_app, length_take. lia. }
  rewrite Hn. clear Hn Hdata Hsum Hfb.
  simpl in Hr.
  destruct ((n1 =? AES_BLOCK_SIZE) && _) eqn:Hflush in Hr.
  - (* the full block is flushed *)
    apply andb_true_iff in Hflush as [Hn1 Hcond]. apply Nat.eqb_eq in Hn1.
    assert (Hmore : negb (enc c) && pad c = true -> 0 < length rest).
    { intros Hh. apply andb_true_iff in Hh as [He Hp].
      apply negb_true_iff in He. rewrite He, Hp in Hcond. simpl in Hcond.
      rewrite orb_false_r in Hcond. by apply Nat.ltb_lt in Hcond. }
    clear Hcond.
    unfold cipher_call in Hr at 1. simpl in Hr.
    destruct (ciph_cipher _ (take AES_BLOCK_SIZE buf1)) as [o1|] eqn:Hc1.
    + simpl in Hr.
      destruct (0 <? nb) eqn:Hnb0.
      * simpl in Hr. apply Nat.ltb_lt in Hnb0.
        destruct (negb (enc c) && pad c && (nb =? length rest)) eqn:Hhold.
        -- apply andb_true_iff in Hhold as [Hhold Heq]. apply Nat.eqb_eq in Heq.
           unfold ossl_assert, require in Hr.
           destruct (AES_BLOCK_SIZE <=? length rest) eqn:Hass.
           2:{ apply Nat.leb_gt in Hass. blia. }
           apply Nat.leb_le in Hass.
           simpl in Hr. unfold cipher_call in Hr. simpl in Hr.
           assert (Htail : concat [take AES_BLOCK_SIZE buf1; take (nb - AES_BLOCK_SIZE) rest]
                             ++ drop (nb - AES_BLOCK_SIZE) rest
                           = take n1 buf1 ++ rest).
           { simpl. rewrite app_nil_r, <- app_assoc, take_drop. by subst. }
           assert (Hne : drop (nb - AES_BLOCK_SIZE) rest <> []).
           { intros Hnil%(f_equal length). rewrite length_drop in Hnil. simpl in Hnil. blia. }
           destruct (ciph_cipher _ (take (nb - AES_BLOCK_SIZE) rest)) as [o2|] eqn:Hc2.
           ++ simpl in Hr. run_tail Hr buf2 Hlen2 Htk.
              { done. } { rewrite length_drop. blia. }
              rewrite Hhold.
              split_and!; [done | rewrite length_drop; blia | done.. | | | ].
              ** repeat constructor; rewrite length_take; blia.
              ** eauto.
              ** left. split_and!; [done | | | | ].
                 --- by rewrite Htk.
                 --- rewrite app_nil_r, length_app, !length_take. blia.
                 --- f_equal. blia.
                 --- exists [o1; o2]. split; [|simpl; by rewrite app_nil_r].
                     repeat constructor; some_call.
           ++ subst r. unfold retval, ctx_of, out_of, outl_of, log_of. simpl.
              split_and!; [done | lia | done.. | | | ].
              ** repeat constructor; rewrite length_take; blia.
              ** eauto.
              ** right. split; [done|]. do 2 eexists. split; [done|].
                 split; [|exact Hc2]. by repeat split.
        -- unfold cipher_call in Hr. simpl in Hr.
           assert (Htail : concat [take AES_BLOCK_SIZE buf1; take nb rest] ++ drop nb rest
                           = take n1 buf1 ++ rest).
           { simpl. rewrite app_nil_r, <- app_assoc, take_drop. by subst. }
           assert (Hne : negb (enc c) && pad c = true -> drop nb rest <> []).
           { intros Hh Hnil%(f_equal length). rewrite length_drop in Hnil. simpl in Hnil.
             rewrite Hh in Hhold. simpl in Hhold. apply Nat.eqb_neq in Hhold. blia. }
           destruct (ciph_cipher _ (take nb rest)) as [o2|] eqn:Hc2.
           ++ simpl in Hr. run_tail Hr buf2 Hlen2 Htk.
              { done. } { rewrite length_drop. blia. }
              split_and!; [done | rewrite length_drop; blia | done.. | | | ].
              ** repeat constructor; rewrite length_take; blia.
              ** eauto.
              ** left. split_and!; [done | | | | ].
                 --- by rewrite Htk.
                 --- rewrite app_nil_r, length_app, !length_take.
                     destruct (negb (enc c) && pad c) eqn:Hh; simpl in Hhold;
                       [apply Nat.eqb_neq in Hhold|]; blia.
                 --- f_equal.
                     destruct (negb (enc c) && pad c) eqn:Hh; simpl in Hhold;
                       [apply Nat.eqb_neq in Hhold|]; blia.
                 --- exists [o1; o2]. split; [|simpl; by rewrite app_nil_r].
                     repeat constructor; some_call.
           ++ subst r. unfold retval, ctx_of, out_of, outl_of, log_of. simpl.
              split_and!; [done | lia | done.. | | | ].
              ** repeat constructor; rewrite length_take; blia.
              ** eauto.
              ** right. split; [done|]. do 2 eexists. split; [done|].
                 split; [|exact Hc2]. by repeat split.
      * simpl in Hr. apply Nat.ltb_ge in Hnb0.
        assert (Htail : concat [take AES_BLOCK_SIZE buf1] ++ rest = take n1 buf1 ++ rest).
        { simpl. rewrite app_nil_r. by subst. }
        assert (Hne : negb (enc c) && pad c = true -> rest <> []).
        { intros Hh%Hmore Hnil%(f_equal length). simpl in Hnil. lia. }
        run_tail Hr buf2 Hlen2 Htk.
        { done. } { blia. }
        split_and!; [done | blia | done.. | | | ].
        ** repeat constructor; rewrite length_take; blia.
        ** eauto.
        ** left. split_and!; [done | | | | ].
           --- by rewrite Htk.
           --- rewrite app_nil_r, !length_take.
               destruct (negb (enc c) && pad c) eqn:Hh; [|blia].
               specialize (Hmore eq_refl). blia.
           --- f_equal.
               destruct (negb (enc c) && pad c) eqn:Hh; [|blia].
               specialize (Hmore eq_refl). blia.
           --- exists [o1]. split; [|simpl; by rewrite app_nil_r].
               repeat constructor; some_call.
    + assert (Hne : negb (enc c) && pad c = true -> rest <> []).
      { intros Hh%Hmore Hnil%(f_equal length). simpl in Hnil. lia. }
      subst r. unfold retval, ctx_of, out_of, outl_of, log_of. simpl.
      split_and!; [done | lia | done.. | | | ].
      ** repeat constructor; rewrite length_take; blia.
      ** exists rest. rewrite app_nil_r. split; [by subst | eauto].
      ** right. split; [done|]. do 2 eexists. split; [done|].
         split; [|exact Hc1]. by repeat split.
  - (* nothing is flushed: pending is partial, or a full block is held *)
    simpl in Hr.
    assert (Hrest : rest = [] /\ (n1 = AES_BLOCK_SIZE -> negb (enc c) && pad c = true)).
    { apply andb_false_iff in Hflush as [Hne | Hcond].
      - apply Nat.eqb_neq in Hne. destruct Hfull; [done|]. split; [done|]. intros; done.
      - apply orb_false_iff in Hcond as [Hcond Hp]. apply orb_false_iff in Hcond as [He Hz].
        apply Nat.ltb_ge in Hz. split; [apply nil_length_inv; lia|].
        intros _. apply negb_false_iff in Hp. by rewrite He, Hp. }
    destruct Hrest as [-> Hheld]. simpl in Hnb.
    assert (nb = 0) as -> by blia. simpl in Hr.
    run_tail Hr buf2 Hlen2 Htk.
    { done. } { simpl. lia. }
    simpl in *. rewrite Nat.add_0_r in *. rewrite app_nil_r in *.
    split_and!; [done | done | done.. | | | ].
    ** constructor.
    ** exists (take n1 buf1). split; [done|]. by intros _ ?.
    ** left. split_and!; [done | | | | ].
       --- by rewrite Htk.
       --- simpl. destruct (decide (n1 = AES_BLOCK_SIZE)) as [Heq|Hne].
           +++ rewrite Hheld by done. blia.
           +++ destruct (negb (enc c) && pad c); blia.
       --- f_equal. destruct (decide (n1 = AES_BLOCK_SIZE)) as [Heq|Hne].
           +++ rewrite Hheld by done. blia.
           +++ destruct (negb (enc c) && pad c); blia.
       --- exists []. split; [constructor | done].
Qed.

Lemma same_stream_trans c1 c2 c3 :
  same_stream c1 c2 -> same_stream c2 c3 -> same_stream c1 c3.
Proof.
  intros (?&?&?&?&?&?) (?&?&?&?&?&?). repeat split; congruence.
Qed.

Lemma same_stream_holdback c c' : same_stream c c' -> holdback c' = holdback c.
Proof. intros (?&?&He&?&?&Hp). unfold holdback. by rewrite He, Hp. Qed.

Lemma transformed_length c l outs :
  Forall2 (transformed c) l outs -> length (concat outs) = length (concat l).
Proof.
  induction 1 as [|x o l outs (c' & _ & Hc) _ IH]; [done|].
  simpl. rewrite !length_app, IH. f_equal. by eapply ciph_cipher_length.
Qed.

Lemma pending_length c : wf c -> length (pending c) = bufsz c.
Proof. intros [Hlen Hle]. unfold pending. rewrite length_take. lia. Qed.

Lemma aes_update_wf c inp : wf c -> wf (ctx_of (aes_update inp (enter c))).
Proof. intros Hwf. by destruct (aes_update_cases c inp Hwf) as (? & _). Qed.

Lemma aes_update_same_stream c inp :
  wf c -> same_stream c (ctx_of (aes_update inp (enter c))).
Proof. intros Hwf. by destruct (aes_update_cases c inp Hwf) as (_ & ? & _). Qed.

(** A successful [update] hands the first [nflush] bytes of pending plus
    input to the transform and keeps the rest pending. *)
Lemma aes_update_success c inp :
  wf c ->
  let r := aes_update inp (enter c) in
  let data := pending c ++ inp in
  let k := nflush (holdback c) (length data) in
  retval r = true ->
  concat (log_of r) = take k data /\ pending (ctx_of r) = drop k data /\
  outl_of r = Some k /\ emitted r = out_of r /\ length (out_of r) = k /\
  exists outs, Forall2 (transformed c) (log_of r) outs /\ out_of r = concat outs.
Proof.
  intros Hwf r data k Hok.
  destruct (aes_update_cases c inp Hwf)
    as (_ & _ & _ & _ & [(_ & Hcat & Hk & Houtl & outs & Houts & Hout) | (Hf & _)]).
  2:{ fold r in Hf. congruence. }
  fold r data k in Hcat, Hk, Houtl, Houts, Hout.
  destruct (split_at _ _ _ _ Hcat Hk) as [Ht Hd].
  assert (Hlo : length (out_of r) = k).
  { rewrite Hout, (transformed_length _ _ _ Houts). done. }
  split_and!; [done.. | | done | by exists outs].
  unfold emitted. rewrite Houtl. simpl. apply take_ge. lia.
Qed.

(** [update] fails only when a transform call fails. *)
Lemma aes_update_total c inp :
  wf c ->
  (forall c' x, same_stream c c' -> aligned x -> is_Some (ciph_cipher c' x)) ->
  retval (aes_update inp (enter c)) = true.
Proof.
  intros Hwf Hciph.
  destruct (aes_update_cases c inp Hwf)
    as (_ & _ & Hal & _ & [(Hok & _) | (_ & x & c' & Hlast & Hss & Hnone)]); [done|].
  apply last_Some in Hlast as [l' Hl]. rewrite Hl in Hal.
  destruct (proj1 (Forall_app _ _ _) Hal) as [_ Hx]. apply Forall_inv in Hx.
  destruct (Hciph c' x Hss Hx) as [o Ho]. congruence.
Qed.

(** After a successful [update] a full pending block only exists where it
    is held back. *)
Lemma aes_update_held c inp :
  wf c ->
  let r := aes_update inp (enter c) in
  retval r = true ->
  bufsz (ctx_of r) = AES_BLOCK_SIZE -> holdback (ctx_of r) = true.
Proof.
  intros Hwf r Hok Hfull.
  destruct (aes_update_success c inp Hwf Hok) as (_ & Hp & _).
  apply (f_equal length) in Hp.
  rewrite pending_length, length_drop in Hp by by apply aes_update_wf.
  fold r in Hp. rewrite Hfull in Hp.
  rewrite (same_stream_holdback c) by by apply aes_update_same_stream.
  revert Hp. generalize (length (pending c ++ inp)). intros n.
  unfold nflush. destruct (holdback c); [done|]. blia.
Qed.

(** Successive updates behave as one update on the concatenated input. *)
Lemma stream_updates_spec chunks : forall c c' o l,
  wf c -> (bufsz c = AES_BLOCK_SIZE -> holdback c = true) ->
  stream_updates c chunks = Some (c', o, l) ->
  let data := pending c ++ concat chunks in
  let k := nflush (holdback c) (length data) in
  wf c' /\ same_stream c c' /\ Forall aligned l /\
  (bufsz c' = AES_BLOCK_SIZE -> holdback c' = true) /\
  concat l = take k data /\ pending c' = drop k data /\ length o = k /\
  exists outs, Forall2 (transformed c) l outs /\ o = concat outs.
Proof.
  induction chunks as [|x xs IH]; intros c c' o l Hwf Hinv; simpl.
  - intros [= <- <- <-]. rewrite app_nil_r.
    assert (Hk : nflush (holdback c) (length (pending c)) = 0).
    { rewrite pending_length by done. destruct Hwf as [_ Hle].
      unfold nflush. destruct (holdback c); [blia|].
      assert (bufsz c <> AES_BLOCK_SIZE) by (intros Heq; by specialize (Hinv Heq)).
      blia. }
    rewrite Hk. simpl. rewrite drop_0.
    split_and!; [done | apply same_stream_refl | constructor | done.. | ].
    exists []. split; [constructor | done].
  - destruct (retval (aes_update x (enter c))) eqn:Hok; [|done].
    destruct (stream_updates _ xs) as [[[c2 o2] l2]|] eqn:Hxs; [|done].
    simpl. intros [= <- <- <-].
    pose proof (aes_update_wf c x Hwf) as Hwf1.
    pose proof (aes_update_same_stream c x Hwf) as Hss1.
    pose proof (aes_update_held c x Hwf Hok) as Hinv1.
    destruct (aes_update_cases c x Hwf) as (_ & _ & Hal1 & _).
    destruct (aes_update_success c x Hwf Hok)
      as (Hl1 & Hp1 & _ & Hem & Hlo1 & outs1 & Houts1 & Hout1).
    destruct (IH _ _ _ _ Hwf1 Hinv1 Hxs)
      as (Hwf2 & Hss2 & Hal2 & Hinv2 & Hl2 & Hp2 & Hlo2 & outs2 & Houts2 & Hout2).
    rewrite (same_stream_holdback _ _ Hss1) in Hl2, Hp2, Hlo2.
    rewrite Hp1 in Hl2, Hp2, Hlo2.
    set (h := holdback c) in *. set (d := pending c ++ x) in *.
    set (k1 := nflush h (length d)) in *.
    assert (Hk1 : k1 <= length d) by apply nflush_le.
    assert (Hlen2 : length (drop k1 d ++ concat xs) = length d - k1 + length (concat xs)).
    { by rewrite length_app, length_drop. }
    rewrite Hlen2 in Hl2, Hp2, Hlo2.
    assert (Hk : nflush h (length (pending c ++ x ++ concat xs))
                 = k1 + nflush h (length d - k1 + length (concat xs))).
    { rewrite app_assoc, length_app. fold d. apply nflush_compose. }
    rewrite Hk. rewrite (app_assoc (pending c)). fold d.
    split_and!.
    + done.
    + by eapply same_stream_trans.
    + by apply Forall_app.
    + done.
    + rewrite concat_app, Hl1, Hl2. symmetry. by apply take_compose.
    + rewrite Hp2. symmetry. by apply drop_compose.
    + rewrite length_app, Hem, Hlo1, Hlo2. done.
    + exists (outs1 ++ outs2). split.
      * apply Forall2_app; [done|].
        eapply Forall2_impl; [exact Houts2|].
        intros y z (c3 & Hss3 & Hc3). exists c3. split; [|done].
        by eapply same_stream_trans.
      * by rewrite concat_app, Hem, Hout1, Hout2.
Qed.

Lemma stream_updates_total chunks : forall c,
  wf c ->
  (forall c' x, same_stream c c' -> aligned x -> is_Some (ciph_cipher c' x)) ->
  is_Some (stream_updates c chunks).
Proof.
  induction chunks as [|x xs IH]; intros c Hwf Hciph; simpl; [done|].
  rewrite (aes_update_total c x Hwf Hciph).
  destruct (IH (ctx_of (aes_update x (enter c)))) as [[[c2 o2] l2] ->].
  - by apply aes_update_wf.
  - intros c' y Hss. apply Hciph. eapply same_stream_trans; [|done].
    by apply aes_update_same_stream.
  - done.
Qed.

End update.

(** ** final *)

Section final.
Context {KS : Type} `{PROV_AES_CIPHER KS}.
Implicit Types c : PROV_AES_KEY KS.

Lemma pending_full c : wf c -> bufsz c = AES_BLOCK_SIZE -> pending c = buf c.
Proof. intros [Hlen _] Hfull. unfold pending. apply take_ge. lia. Qed.

Lemma set_buf_bufsz_id c : set_bufsz (set_buf c (buf c)) (bufsz c) = c.
Proof. by destruct c. Qed.

(** [final] on an encrypt context, case by case. *)
Lemma aes_final_encrypt_cases c :
  wf c -> enc c = true ->
  let r := aes_final (enter c) in
  (pad c = true ->
     let p := AES_BLOCK_SIZE - bufsz c in
     let blk := pending c ++ replicate p (byte_of_nat p) in
     let c1 := set_bufsz (set_buf c blk) AES_BLOCK_SIZE in
     length blk = AES_BLOCK_SIZE /\
     match ciph_cipher c1 blk with
     | Some o => r = (Some tt, mk_call (set_bufsz c1 0) o (Some AES_BLOCK_SIZE) [blk])
     | None => r = (None, mk_call c1 [] None [blk])
     end) /\
  (pad c = false -> bufsz c = 0 -> r = (Some tt, mk_call c [] (Some 0) [])) /\
  (pad c = false -> bufsz c <> 0 -> bufsz c <> AES_BLOCK_SIZE -> r = (None, enter c)) /\
  (pad c = false -> bufsz c = AES_BLOCK_SIZE ->
     match ciph_cipher c (pending c) with
     | Some o => r = (Some tt, mk_call (set_bufsz c 0) o (Some AES_BLOCK_SIZE) [pending c])
     | None => r = (None, mk_call c [] None [pending c])
     end) /\
  (retval r = true ->
     bufsz (ctx_of r) = 0 /\ emitted r = out_of r /\
     outl_of r = Some (length (out_of r))).
Proof.
  intros Hwf He r.
  assert (Hr : r = aes_final (enter c)) by done. clearbody r.
  unfold aes_final, mbind, M_bind, bindM in Hr. simpl in Hr. rewrite He in Hr.
  destruct Hwf as [Hlen Hle].
  destruct (pad c) eqn:Hp.
  - (* padding enabled *)
    rewrite padblock_spec in Hr by done. simpl in Hr.
    unfold cipher_call in Hr. simpl in Hr.
    fold (pending c) in Hr.
    set (p := AES_BLOCK_SIZE - bufsz c) in *.
    set (blk := pending c ++ replicate p (byte_of_nat p)) in *.
    assert (Hblk : length blk = AES_BLOCK_SIZE).
    { unfold blk, pending. rewrite length_app, length_take, length_replicate. lia. }
    rewrite (take_ge blk) in Hr by lia.
    split_and!; try done.
    + intros _. cbv zeta. fold p. fold blk. split; [done|].
      destruct (ciph_cipher _ blk) as [o|] eqn:Hc; by subst r.
    + destruct (ciph_cipher _ blk) as [o|] eqn:Hc; subst r; [|done].
      intros _. unfold emitted, ctx_of, out_of, outl_of. simpl.
      apply ciph_cipher_length in Hc.
      split_and!; [done | apply take_ge; lia | f_equal; lia].
  - (* padding disabled *)
    destruct (bufsz c =? 0) eqn:Hz.
    + apply Nat.eqb_eq in Hz. simpl in Hr.
      split_and!; intros; subst r; try done; try blia.
    + apply Nat.eqb_neq in Hz.
      destruct (bufsz c =? AES_BLOCK_SIZE) eqn:Hfull; simpl in Hr.
      * apply Nat.eqb_eq in Hfull.
        unfold cipher_call in Hr. simpl in Hr.
        rewrite <- (pending_full c) in Hr by done.
        rewrite (take_ge (pending c)) in Hr
          by (rewrite pending_length by done; lia).
        destruct (ciph_cipher c (pending c)) as [o|] eqn:Hc;
          split_and!; intros; subst r; try done; try blia.
        unfold emitted, ctx_of, out_of, outl_of. simpl.
        apply ciph_cipher_length in Hc. rewrite pending_length in Hc by done.
        split_and!; [done | apply take_ge; lia | f_equal; lia].
      * apply Nat.eqb_neq in Hfull.
        split_and!; intros; subst r; try done; try blia.
Qed.

(** [final] on a decrypt context, case by case. *)
Lemma aes_final_decrypt_cases c :
  wf c -> enc c = false ->
  let r := aes_final (enter c) in
  (retval r = true ->
     bufsz c = AES_BLOCK_SIZE \/ (pad c = false /\ bufsz c = 0)) /\
  (pad c = false -> bufsz c = 0 -> r = (Some tt, mk_call c [] (Some 0) [])) /\
  (bufsz c <> AES_BLOCK_SIZE -> ~ (pad c = false /\ bufsz c = 0) ->
     r = (None, enter c)) /\
  (bufsz c = AES_BLOCK_SIZE ->
     match ciph_cipher c (pending c) with
     | None => r = (None, mk_call c [] None [pending c])
     | Some pt =>
         let c1 := set_buf c pt in
         (pad c = false ->
            r = (Some tt, mk_call (set_bufsz c1 0) pt (Some AES_BLOCK_SIZE) [pending c])) /\
         (pad c = true -> valid_padding pt ->
            let n := AES_BLOCK_SIZE - pad_length pt in
            r = (Some tt, mk_call (set_bufsz c1 0) (take n pt) (Some n) [pending c])) /\
         (pad c = true -> ~ valid_padding pt ->
            r = (None, mk_call c1 [] None [pending c]))
     end).
Proof.
  intros Hwf He r.
  assert (Hr : r = aes_final (enter c)) by done. clearbody r.
  unfold aes_final, mbind, M_bind, bindM in Hr. simpl in Hr. rewrite He in Hr.
  pose proof Hwf as [Hlen Hle].
  destruct (bufsz c =? AES_BLOCK_SIZE) eqn:Hfull; simpl in Hr.
  - (* one full block *)
    apply Nat.eqb_eq in Hfull.
    unfold cipher_call in Hr. simpl in Hr.
    rewrite <- (pending_full c) in Hr by done.
    rewrite (take_ge (pending c)) in Hr by (rewrite pending_length by done; lia).
    destruct (ciph_cipher c (pending c)) as [pt|] eqn:Hc.
    2:{ split_and!; intros; subst r; try done; try blia. }
    assert (Hpt : length pt = AES_BLOCK_SIZE).
    { apply ciph_cipher_length in Hc. rewrite pending_length in Hc by done. lia. }
    rewrite memcpy_whole in Hr by (rewrite pending_length by done; lia).
    simpl in Hr.
    destruct (pad c) eqn:Hp.
    + (* padding validated and stripped *)
      destruct (unpadblock pt (bufsz c) AES_BLOCK_SIZE) as [n|] eqn:Hun.
      * apply unpadblock_spec in Hun as (Hrange & Hn & Hdrop); [|done].
        simpl in Hr. fold (pad_length pt) in Hrange, Hn, Hdrop.
        repeat (split_and!; intros); subst r n; try done; try blia; try tauto.
        exfalso. unfold valid_padding in *. tauto.
      * simpl in Hr.
        assert (Hinv : ~ valid_padding pt).
        { intros [Hrange Hdrop].
          assert (unpadblock pt (bufsz c) AES_BLOCK_SIZE
                  = Some (AES_BLOCK_SIZE - pad_length pt)) as Hyes; [|congruence].
          by apply unpadblock_spec. }
        repeat (split_and!; intros); subst r; try done; try blia.
    + simpl in Hr.
      repeat (split_and!; intros); subst r; try done; try blia; try tauto.
      unfold put_ctx. simpl. rewrite Hfull. by rewrite take_ge by lia.
  - (* anything else *)
    apply Nat.eqb_neq in Hfull.
    destruct (bufsz c =? 0) eqn:Hz; simpl in Hr.
    + apply Nat.eqb_eq in Hz. destruct (pad c) eqn:Hp; simpl in Hr;
        split_and!; intros; subst r; try done; try blia; try tauto.
    + apply Nat.eqb_neq in Hz.
      split_and!; intros; subst r; try done; try blia; try tauto.
Qed.

End final.

(** ** The pending buffer never overflows *)

Section invariant.
Context {KS P : Type} `{PROV_AES_CIPHER KS} `{OSSL_PARAM_API P}.
Implicit Types c : PROV_AES_KEY KS.

Lemma aes_final_wf c : wf c -> wf (ctx_of (aes_final (enter c))).
Proof.
  intros Hwf. pose proof Hwf as [Hlen Hle].
  destruct (enc c) eqn:He.
  - destruct (aes_final_encrypt_cases c Hwf He) as (Hpad & Hempty & Hpart & Hfull & _).
    destruct (pad c) eqn:Hp.
    + destruct (Hpad eq_refl) as [Hblk Hr]. clear Hpad Hempty Hpart Hfull.
      revert Hr. cbv zeta.
      destruct (ciph_cipher _ _); intros ->; split; simpl; (done || lia).
    + destruct (decide (bufsz c = 0)) as [Hz|Hz].
      { by rewrite (Hempty eq_refl Hz). }
      destruct (decide (bufsz c = AES_BLOCK_SIZE)) as [Hf|Hf].
      * specialize (Hfull eq_refl Hf). clear Hpad Hempty Hpart. revert Hfull.
        destruct (ciph_cipher _ _); intros ->; split; simpl; (done || lia).
      * by rewrite (Hpart eq_refl Hz Hf).
  - destruct (aes_final_decrypt_cases c Hwf He) as (_ & Hempty & Hbad & Hfull).
    destruct (decide (bufsz c = AES_BLOCK_SIZE)) as [Hf|Hf].
    + specialize (Hfull Hf).
      destruct (ciph_cipher c (pending c)) as [pt|] eqn:Hc; [|by rewrite Hfull].
      assert (Hpt : length pt = AES_BLOCK_SIZE).
      { apply ciph_cipher_length in Hc. rewrite pending_length in Hc by done. lia. }
      destruct Hfull as (Hnopad & Hvalid & Hinvalid).
      destruct (pad c) eqn:Hp.
      * destruct (decide (valid_padding pt)) as [Hv|Hv].
        -- rewrite (Hvalid eq_refl Hv). split; simpl; (done || lia).
        -- rewrite (Hinvalid eq_refl Hv). split; simpl; (done || lia).
      * rewrite (Hnopad eq_refl). split; simpl; (done || lia).
    + destruct (decide (pad c = false /\ bufsz c = 0)) as [[Hp Hz]|Hno].
      * by rewrite (Hempty Hp Hz).
      * by rewrite (Hbad Hf Hno).
Qed.

Lemma api_step_wf c (a : api_call P) : wf c -> wf (api_step c a).
Proof.
  intros Hwf. destruct a as [key v|key v|inp| |params|params]; simpl.
  - unfold aes_einit, PROV_AES_KEY_generic_init.
    destruct key, v; simpl; try destruct (ciph_init _ _ _); done.
  - unfold aes_dinit, PROV_AES_KEY_generic_init.
    destruct key, v; simpl; try destruct (ciph_init _ _ _); done.
  - by apply aes_update_wf.
  - by apply aes_final_wf.
  - done.
  - unfold aes_set_params.
    destruct (OSSL_PARAM_locate _ _) as [[i p]|]; [|done].
    by destruct (OSSL_PARAM_get_int p).
Qed.

(** C7: in every context reachable from a fresh one by init, update, final
    (and parameter) calls, whatever they return, at most one block is
    pending: [0 <= len(pending) <= block_size]. *)
Theorem pending_bounded c :
  reachable (P := P) c ->
  bufsz c <= AES_BLOCK_SIZE /\ length (pending c) = bufsz c /\
  length (buf c) = AES_BLOCK_SIZE.
Proof.
  intros Hreach.
  assert (Hwf : wf c).
  { induction Hreach as [bits _|c a _ IH].
    - split; [apply length_replicate | simpl; lia].
    - by apply api_step_wf. }
  destruct Hwf as [Hlen Hle]. split_and!; [done | | done].
  by apply pending_length.
Qed.

(** ** The padding parameter *)

Lemma OSSL_PARAM_locate_None (params : list P) k :
  OSSL_PARAM_locate params k = None <->
  Forall (fun p => param_key p <> k) params.
Proof.
  induction params as [|p ps IH]; simpl; [by split; [constructor|]|].
  destruct (String.eqb (param_key p) k) eqn:Hk.
  - apply String.eqb_eq in Hk. split; [done|]. by intros [? _]%Forall_cons.
  - apply String.eqb_neq in Hk.
    destruct (OSSL_PARAM_locate ps k) as [[i q]|]; simpl.
    + split; [done|]. intros [_ Hps]%Forall_cons. by apply IH in Hps.
    + split; [|done]. intros _. constructor; [done|]. by apply IH.
Qed.

Lemma OSSL_PARAM_locate_Some (params : list P) k : forall i p,
  OSSL_PARAM_locate params k = Some (i, p) <->
  params !! i = Some p /\ param_key p = k /\
  Forall (fun q => param_key q <> k) (take i params).
Proof.
  induction params as [|q ps IH]; intros i p; simpl.
  { split; [done|]. by intros [? _]. }
  destruct (String.eqb (param_key q) k) eqn:Hk.
  - apply String.eqb_eq in Hk. split.
    + intros [= <- <-]. split_and!; [done | done | constructor].
    + intros (Hi & Hp & Hbefore). destruct i as [|i]; simpl in *.
      * by injection Hi as ->.
      * by apply Forall_cons in Hbefore as [? _].
  - apply String.eqb_neq in Hk.
    destruct (OSSL_PARAM_locate ps k) as [[j r]|]; simpl.
    + split.
      * intros [= <- <-]. destruct (proj1 (IH j r) eq_refl) as (? & ? & ?).
        split_and!; [done | done | by constructor].
      * intros (Hi & Hp & Hbefore). destruct i as [|i]; simpl in *.
        { injection Hi as ->. done. }
        apply Forall_cons in Hbefore as [_ Hbefore].
        assert (Some (j, r) = Some (i, p)) as Heq by by apply IH.
        congruence.
    + split; [done|]. intros (Hi & Hp & Hbefore). destruct i as [|i]; simpl in *.
      { injection Hi as ->. done. }
      apply Forall_cons in Hbefore as [_ Hbefore].
      assert (None = Some (i, p)) as Heq by by apply IH.
      congruence.
Qed.

(** C9: [set_params] with a padding parameter that does not convert to an
    integer fails and leaves the context as it was; without a padding
    parameter it succeeds and leaves the context as it was; with one that
    converts, the flag becomes whether the value is non-zero.  [get_params]
    stores the current flag in the padding parameter, does not touch the
    context, and leaves an array without padding parameter as it was. *)
Theorem padding_parameter c (params : list P) :
  (forall i p,
     params !! i = Some p -> param_key p = OSSL_CIPHER_PARAM_PADDING ->
     Forall (fun q => param_key q <> OSSL_CIPHER_PARAM_PADDING) (take i params) ->
     (OSSL_PARAM_get_int p = None -> aes_set_params c params = (false, c)) /\
     (forall v, OSSL_PARAM_get_int p = Some v ->
        aes_set_params c params = (true, set_pad c (negb (v =? 0)%Z))) /\
     aes_get_params c params =
       match OSSL_PARAM_set_uint p (Z.b2z (pad c)) with
       | Some p' => (true, <[i := p']> params)
       | None => (false, params)
       end) /\
  (Forall (fun q => param_key q <> OSSL_CIPHER_PARAM_PADDING) params ->
     aes_set_params c params = (true, c) /\
     aes_get_params c params = (true, params)).
Proof.
  split.
  - intros i p Hi Hk Hbefore.
    assert (Hloc : OSSL_PARAM_locate params OSSL_CIPHER_PARAM_PADDING = Some (i, p)).
    { by apply OSSL_PARAM_locate_Some. }
    unfold aes_set_params, aes_get_params. rewrite Hloc.
    split_and!; [by intros -> | by intros v -> | done].
  - intros Hnone. apply OSSL_PARAM_locate_None in Hnone.
    unfold aes_set_params, aes_get_params. by rewrite Hnone.
Qed.

End invariant.

(** ** The holdback rule *)

Section holdback.
Context {KS : Type} `{PROV_AES_CIPHER KS}.
Implicit Types c : PROV_AES_KEY KS.

Lemma aes_update_nil c :
  (bufsz c = AES_BLOCK_SIZE -> holdback c = true) ->
  aes_update [] (enter c) = no_op c.
Proof.
  intros Hheld. unfold aes_update, no_op, mbind, M_bind, bindM. simpl.
  rewrite fillblock_nil. simpl.
  assert ((bufsz c =? AES_BLOCK_SIZE) && (enc c || (0 <? 0) || negb (pad c)) = false) as ->.
  { destruct (bufsz c =? AES_BLOCK_SIZE) eqn:Hfull; [|done].
    apply Nat.eqb_eq in Hfull. specialize (Hheld Hfull).
    unfold holdback in Hheld. apply andb_true_iff in Hheld as [He Hp].
    apply negb_true_iff in He. by rewrite He, Hp. }
  simpl. rewrite trailingdata_nil. simpl.
  unfold require, ret, store_outl, put_ctx. simpl.
  by rewrite !set_buf_bufsz_id.
Qed.

(** Whether [update] hands a full pending block to the transform. *)
Lemma flush_rule c inp :
  wf c -> bufsz c = AES_BLOCK_SIZE ->
  (exists l, log_of (aes_update inp (enter c)) = pending c :: l) <->
  (enc c = true \/ inp <> [] \/ pad c = false).
Proof.
  intros Hwf Hfull. split.
  - intros [l Hl].
    destruct (enc c) eqn:He; [by left|]. destruct (pad c) eqn:Hp; [|by right; right].
    right; left. intros ->.
    rewrite aes_update_nil in Hl; [done|].
    intros _. unfold holdback. by rewrite He, Hp.
  - intros Hcond.
    assert (Hc : enc c || (0 <? length inp) || negb (pad c) = true).
    { destruct Hcond as [-> | [Hi | ->]]; [done | | by rewrite orb_true_r].
      destruct inp; [done|]. simpl. by rewrite orb_true_r. }
    unfold aes_update, mbind, M_bind, bindM. simpl.
    rewrite Hfull, fillblock_full. simpl.
    rewrite Nat.eqb_refl, Hc. simpl.
    rewrite (pending_full c Hwf Hfull).
    rewrite (take_ge (buf c)) by (destruct Hwf; lia).
    unfold cipher_call, ossl_assert, require, ret, return0, store_outl, put_ctx, write_out.
    simpl. unfold log_of.
    repeat case_match; simplify_eq/=; eauto.
Qed.


(** C10 (amended): a zero-length [update] succeeds, reports zero bytes and
    leaves the whole context unchanged in every state where pending is not
    a full block or is a full block held back (decrypting with padding),
    and in every state reached from such a state by successful updates of
    one stream. *)
Theorem update_empty_no_op c0 chunks c o l :
  wf c0 -> (bufsz c0 = AES_BLOCK_SIZE -> holdback c0 = true) ->
  stream_updates c0 chunks = Some (c, o, l) ->
  aes_update [] (enter c) = no_op c.
Proof.
  intros Hwf Hheld Hrun. apply aes_update_nil.
  by destruct (stream_updates_spec _ _ _ _ _ Hwf Hheld Hrun) as (_ & _ & _ & Hinv & _).
Qed.

(** C2: on a decrypt stream with padding, the inputs handed to the
    transform by any successful sequence of updates never include the end
    of the data: the last block, a full one when the data end on a block
    boundary, stays pending.  This holds for each further [update] call,
    successful or not.  An [update] hands a full pending block to the
    transform exactly when the context encrypts, or input is supplied, or
    padding is off. *)
Theorem holdback_invariant c chunks c' o l :
  wf c -> bufsz c = 0 -> enc c = false -> pad c = true ->
  stream_updates c chunks = Some (c', o, l) ->
  let data := concat chunks in
  concat l ++ pending c' = data /\
  (data <> [] -> 1 <= bufsz c' <= AES_BLOCK_SIZE) /\
  (data <> [] -> aligned data ->
     bufsz c' = AES_BLOCK_SIZE /\
     pending c' = drop (length data - AES_BLOCK_SIZE) data) /\
  (forall inp, exists tail,
     concat (log_of (aes_update inp (enter c'))) ++ tail = pending c' ++ inp /\
     (pending c' ++ inp <> [] -> tail <> [])) /\
  (forall c2 inp, wf c2 -> bufsz c2 = AES_BLOCK_SIZE ->
     (exists l2, log_of (aes_update inp (enter c2)) = pending c2 :: l2) <->
     (enc c2 = true \/ inp <> [] \/ pad c2 = false)).
Proof.
  intros Hwf Hz He Hp Hrun data.
  assert (Hhold : holdback c = true) by (unfold holdback; by rewrite He, Hp).
  assert (Hheld : bufsz c = AES_BLOCK_SIZE -> holdback c = true) by by intros.
  destruct (stream_updates_spec _ _ _ _ _ Hwf Hheld Hrun)
    as (Hwf' & Hss & _ & _ & Hl & Hpend & _).
  assert (Hnil : pending c = []) by (unfold pending; by rewrite Hz).
  rewrite Hnil, Hhold in Hl, Hpend. simpl in Hl, Hpend. fold data in Hl, Hpend.
  assert (Hb : bufsz c' = length data - nflush true (length data)).
  { by rewrite <- (pending_length c' Hwf'), Hpend, length_drop. }
  assert (Hn : data <> [] -> 0 < length data).
  { destruct data; [done|]. simpl. lia. }
  split_and!.
  - by rewrite Hl, Hpend, take_drop.
  - intros Hne%Hn. rewrite Hb. unfold nflush. blia.
  - intros Hne%Hn Hal. unfold aligned in Hal.
    assert (Hk : nflush true (length data) = length data - AES_BLOCK_SIZE).
    { unfold nflush. blia. }
    rewrite Hb, Hpend, Hk. split; [blia | f_equal; blia].
  - intros inp.
    destruct (aes_update_cases c' inp Hwf') as (_ & _ & _ & (tail & Ht & Hne) & _).
    exists tail. split; [done|]. apply Hne.
    by rewrite (same_stream_holdback c c').
  - intros c2 inp. apply flush_rule.
Qed.

(** C5 (amended): when [update] succeeds, every input byte was handed to
    the transform or is retained in pending, and the reported length is
    the number of whole blocks transformed times the block size, which is
    also the number of bytes stored at [out].  It fails only when a call
    to the transform failed, and succeeds whenever the transform accepts
    whole blocks. *)
Theorem update_accounts c inp :
  wf c ->
  let r := aes_update inp (enter c) in
  let blocks := length (concat (log_of r)) / AES_BLOCK_SIZE in
  (retval r = true ->
     concat (log_of r) ++ pending (ctx_of r) = pending c ++ inp /\
     Forall aligned (log_of r) /\
     length (concat (log_of r)) = blocks * AES_BLOCK_SIZE /\
     outl_of r = Some (blocks * AES_BLOCK_SIZE) /\
     length (out_of r) = blocks * AES_BLOCK_SIZE) /\
  (retval r = false ->
     exists x c', last (log_of r) = Some x /\ same_stream c c' /\
                  ciph_cipher c' x = None) /\
  ((forall c' x, same_stream c c' -> aligned x -> is_Some (ciph_cipher c' x)) ->
     retval r = true).
Proof.
  intros Hwf r blocks. split_and!.
  - intros Hok.
    destruct (aes_update_cases c inp Hwf) as (_ & _ & Hal & _).
    destruct (aes_update_success c inp Hwf Hok) as (Hl & Hp & Houtl & _ & Hlo & _).
    fold r in Hal, Hl, Hp, Houtl, Hlo.
    assert (Hk : length (concat (log_of r))
                 = nflush (holdback c) (length (pending c ++ inp))).
    { rewrite Hl, length_take. pose proof (nflush_le (holdback c) (length (pending c ++ inp))). lia. }
    assert (Hb : blocks * AES_BLOCK_SIZE = length (concat (log_of r))).
    { unfold blocks. rewrite Hk.
      pose proof (nflush_aligned (holdback c) (length (pending c ++ inp))). blia. }
    split_and!; [by rewrite Hl, Hp, take_drop | done | done | | ].
    + by rewrite Hb, Hk.
    + by rewrite Hb, Hk.
  - intros Hfail.
    destruct (aes_update_cases c inp Hwf) as (_ & _ & _ & _ & [(Hok & _) | (_ & Hex)]); [|done].
    fold r in Hok. congruence.
  - by apply aes_update_total.
Qed.

End holdback.

(** ** Padding on whole streams, and the round trip *)

Section padding.
Context {KS : Type} `{PROV_AES_CIPHER KS}.
Implicit Types c : PROV_AES_KEY KS.

(** An encrypt stream with padding, started on empty pending: what the
    transform receives in total and how much is emitted. *)
Lemma stream_run_padded c chunks o l :
  wf c -> bufsz c = 0 -> enc c = true -> pad c = true ->
  stream_run c chunks = Some (o, l) ->
  let data := concat chunks in
  let p := AES_BLOCK_SIZE - length data mod AES_BLOCK_SIZE in
  concat l = data ++ replicate p (byte_of_nat p) /\
  length o = length data + p /\
  exists outs, Forall2 (transformed c) l outs /\ o = concat outs /\ Forall aligned l.
Proof.
  intros Hwf Hz He Hp Hrun data p.
  unfold stream_run in Hrun.
  destruct (stream_updates c chunks) as [[[c' o1] l1]|] eqn:Hup; [|done].
  simpl in Hrun.
  destruct (retval (aes_final (enter c'))) eqn:Hok; [|done].
  injection Hrun as <- <-.
  assert (Hhold : holdback c = false) by (unfold holdback; by rewrite He).
  assert (Hheld : bufsz c = AES_BLOCK_SIZE -> holdback c = true) by (intros; blia).
  destruct (stream_updates_spec _ _ _ _ _ Hwf Hheld Hup)
    as (Hwf' & Hss & Hal & _ & Hl & Hpend & Hlo & outs & Houts & Ho).
  assert (Hnil : pending c = []) by (unfold pending; by rewrite Hz).
  rewrite Hnil, Hhold in Hl, Hpend, Hlo. simpl in Hl, Hpend, Hlo.
  fold data in Hl, Hpend, Hlo.
  destruct Hss as (Hks & Hmode & He' & Hiv & Hkl & Hp').
  assert (Hb : bufsz c' = length data mod AES_BLOCK_SIZE).
  { rewrite <- (pending_length c' Hwf'), Hpend, length_drop. blia. }
  destruct (aes_final_encrypt_cases c' Hwf') as (Hpad & _ & _ & _ & Hsucc);
    [congruence|].
  specialize (Hpad ltac:(congruence)). cbv zeta in Hpad.
  rewrite Hb in Hpad. fold p in Hpad. destruct Hpad as [Hblk Hr].
  destruct (Hsucc Hok) as (_ & Hem & _).
  destruct (ciph_cipher _ _) as [o2|] eqn:Hc2.
  2:{ rewrite Hr in Hok. done. }
  rewrite Hem. rewrite Hr. unfold out_of, log_of. simpl.
  pose proof (ciph_cipher_length _ _ _ Hc2) as Hlo2.
  split_and!.
  - rewrite concat_app, Hl, Hpend. simpl. rewrite app_nil_r, app_assoc.
    by rewrite take_drop.
  - rewrite length_app, Hlo, Hlo2, Hblk. unfold p. blia.
  - exists (outs ++ [o2]). split_and!.
    + apply Forall2_app; [done|]. constructor; [|constructor].
      eexists. split; [|exact Hc2]. repeat split; simpl; congruence.
    + rewrite concat_app. simpl. by rewrite app_nil_r, Ho.
    + apply Forall_app. split; [done|]. constructor; [|constructor].
      unfold aligned. rewrite Hblk. blia.
Qed.

Lemma stream_run_padded_total c chunks :
  wf c -> bufsz c = 0 -> enc c = true -> pad c = true ->
  (forall c' x, same_stream c c' -> aligned x -> is_Some (ciph_cipher c' x)) ->
  is_Some (stream_run c chunks).
Proof.
  intros Hwf Hz He Hp Hciph. unfold stream_run.
  destruct (stream_updates_total chunks c Hwf Hciph) as [[[c' o1] l1] Hup].
  rewrite Hup. simpl.
  assert (Hheld : bufsz c = AES_BLOCK_SIZE -> holdback c = true) by (intros; blia).
  destruct (stream_updates_spec _ _ _ _ _ Hwf Hheld Hup) as (Hwf' & Hss & _).
  pose proof Hss as (Hks & Hmode & He' & Hiv & Hkl & Hp').
  destruct (aes_final_encrypt_cases c' Hwf') as (Hpad & _); [congruence|].
  specialize (Hpad ltac:(congruence)). cbv zeta in Hpad. destruct Hpad as [Hblk Hr].
  match type of Hr with match ciph_cipher ?c1 ?b with _ => _ end =>
    destruct (Hciph c1 b) as [o2 Ho2] end.
  - eapply same_stream_trans; [exact Hss|]. by repeat split.
  - unfold aligned. rewrite Hblk. blia.
  - rewrite Ho2 in Hr. by rewrite Hr.
Qed.


(** For a block and a fill count that is one block, [unpadblock] accepts
    exactly the valid paddings and strips them. *)
Lemma unpadblock_valid blk n m :
  length blk = AES_BLOCK_SIZE ->
  unpadblock blk n AES_BLOCK_SIZE = Some m <->
  valid_padding blk /\ m = AES_BLOCK_SIZE - pad_length blk.
Proof.
  intros Hlen. rewrite unpadblock_spec by done. unfold valid_padding, pad_length.
  cbv zeta. tauto.
Qed.

(** C6: with padding enabled, finishing an encrypt stream hands the
    transform the data followed by [p = 16 - (len mod 16)] bytes of value
    [p], with [p] in [1 .. 16] (a whole block of padding after data that
    end on a block boundary), so that [len + p] bytes are emitted; on
    decrypt the last block is accepted exactly when its last byte [p] is in
    [1 .. 16] and each of its last [p] bytes is [p]. *)
Theorem padding_scheme c chunks :
  wf c -> bufsz c = 0 -> enc c = true -> pad c = true ->
  let data := concat chunks in
  let p := AES_BLOCK_SIZE - length data mod AES_BLOCK_SIZE in
  1 <= p <= AES_BLOCK_SIZE /\
  (length data mod AES_BLOCK_SIZE = 0 -> p = AES_BLOCK_SIZE) /\
  (forall o l, stream_run c chunks = Some (o, l) ->
     concat l = data ++ replicate p (byte_of_nat p) /\
     length o = length data + p) /\
  ((forall c' x, same_stream c c' -> aligned x -> is_Some (ciph_cipher c' x)) ->
     is_Some (stream_run c chunks)) /\
  (forall blk n m, length blk = AES_BLOCK_SIZE ->
     unpadblock blk n AES_BLOCK_SIZE = Some m <->
     valid_padding blk /\ m = AES_BLOCK_SIZE - pad_length blk) /\
  (forall cd pt, wf cd -> enc cd = false -> pad cd = true ->
     bufsz cd = AES_BLOCK_SIZE -> ciph_cipher cd (pending cd) = Some pt ->
     retval (aes_final (enter cd)) = true <-> valid_padding pt).
Proof.
  intros Hwf Hz He Hp data p.
  split; [unfold p; blia|]. split; [unfold p; blia|]. split_and!.
  - intros o l Hrun.
    destruct (stream_run_padded c chunks o l Hwf Hz He Hp Hrun) as (Hl & Ho & _).
    by split.
  - by apply stream_run_padded_total.
  - intros blk n m. apply unpadblock_valid.
  - intros cd pt Hwfd Hed Hpd Hfull Hc.
    destruct (aes_final_decrypt_cases cd Hwfd Hed) as (_ & _ & _ & Hcases).
    specialize (Hcases Hfull). rewrite Hc in Hcases.
    destruct Hcases as (_ & Hvalid & Hinvalid).
    destruct (decide (valid_padding pt)) as [Hv|Hv].
    + by rewrite (Hvalid Hpd Hv).
    + rewrite (Hinvalid Hpd Hv). split; [done|]. by intros ?.
Qed.

(** C4: [final] on an encrypt context.  With padding, pending is padded to
    exactly one block, the block is transformed and its 16 bytes are
    emitted; without padding an empty pending gives zero bytes and success,
    a partial block fails, and a full block is transformed and emitted.
    Every success leaves pending empty. *)
Theorem final_encrypt c :
  wf c -> enc c = true ->
  let r := aes_final (enter c) in
  (pad c = true ->
     let p := AES_BLOCK_SIZE - bufsz c in
     let blk := pending c ++ replicate p (byte_of_nat p) in
     let c1 := set_bufsz (set_buf c blk) AES_BLOCK_SIZE in
     length blk = AES_BLOCK_SIZE /\
     match ciph_cipher c1 blk with
     | Some o => r = (Some tt, mk_call (set_bufsz c1 0) o (Some AES_BLOCK_SIZE) [blk])
     | None => r = (None, mk_call c1 [] None [blk])
     end) /\
  (pad c = false -> bufsz c = 0 -> r = (Some tt, mk_call c [] (Some 0) [])) /\
  (pad c = false -> bufsz c <> 0 -> bufsz c <> AES_BLOCK_SIZE -> r = (None, enter c)) /\
  (pad c = false -> bufsz c = AES_BLOCK_SIZE ->
     match ciph_cipher c (pending c) with
     | Some o => r = (Some tt, mk_call (set_bufsz c 0) o (Some AES_BLOCK_SIZE) [pending c])
     | None => r = (None, mk_call c [] None [pending c])
     end) /\
  (retval r = true ->
     bufsz (ctx_of r) = 0 /\ emitted r = out_of r /\
     outl_of r = Some (length (out_of r))).
Proof. exact (aes_final_encrypt_cases c). Qed.

(** C3: [final] on a decrypt context succeeds only with exactly one full
    block pending, or with padding disabled and nothing pending (zero bytes
    emitted); any other pending length fails.  With a full block, the block
    is transformed; with the padding flag set the padding is validated and
    stripped and [16 - p] bytes are emitted, without it all 16; pending is
    reset to empty. *)
Theorem final_decrypt c :
  wf c -> enc c = false ->
  let r := aes_final (enter c) in
  (retval r = true ->
     bufsz c = AES_BLOCK_SIZE \/ (pad c = false /\ bufsz c = 0)) /\
  (pad c = false -> bufsz c = 0 -> r = (Some tt, mk_call c [] (Some 0) [])) /\
  (bufsz c <> AES_BLOCK_SIZE -> ~ (pad c = false /\ bufsz c = 0) ->
     r = (None, enter c)) /\
  (bufsz c = AES_BLOCK_SIZE ->
     match ciph_cipher c (pending c) with
     | None => r = (None, mk_call c [] None [pending c])
     | Some pt =>
         let c1 := set_buf c pt in
         (pad c = false ->
            r = (Some tt, mk_call (set_bufsz c1 0) pt (Some AES_BLOCK_SIZE) [pending c])) /\
         (pad c = true -> valid_padding pt ->
            let n := AES_BLOCK_SIZE - pad_length pt in
            r = (Some tt, mk_call (set_bufsz c1 0) (take n pt) (Some n) [pending c])) /\
         (pad c = true -> ~ valid_padding pt ->
            r = (None, mk_call c1 [] None [pending c]))
     end).
Proof. exact (aes_final_decrypt_cases c). Qed.

End padding.

(** ** Round trip *)

Section round_trip.
Context {KS : Type} `{PROV_AES_CIPHER KS}.
Implicit Types c : PROV_AES_KEY KS.

(** The transform in ECB mode under an established key: [ke] and [kd] are
    the transform states that [init] leaves for encryption and decryption;
    on whole blocks the transform computes [E], respectively [D], block by
    block, and [D] inverts [E]. *)
Variables (ke kd : KS) (E D : list byte -> list byte).
Hypothesis cipher_enc : forall c x,
  ks c = ke -> enc c = true -> aligned x -> ciph_cipher c x = Some (E x).
Hypothesis cipher_dec : forall c x,
  ks c = kd -> enc c = false -> aligned x -> ciph_cipher c x = Some (D x).
Hypothesis E_app : forall x y, aligned x -> aligned y -> E (x ++ y) = E x ++ E y.
Hypothesis D_app : forall x y, aligned x -> aligned y -> D (x ++ y) = D x ++ D y.
Hypothesis D_E : forall x, aligned x -> D (E x) = x.

Lemma aligned_app x y : aligned x -> aligned y -> aligned (x ++ y).
Proof. unfold aligned. rewrite length_app. intros. blia. Qed.

Lemma aligned_concat l : Forall aligned l -> aligned (concat l).
Proof.
  induction 1 as [|x l Hx _ IH]; simpl; [done|]. by apply aligned_app.
Qed.

Lemma aligned_take k x : k mod AES_BLOCK_SIZE = 0 -> k <= length x -> aligned (take k x).
Proof. intros Hk Hle. unfold aligned. by rewrite length_take_le. Qed.

Section ecb.
Variables (k0 : KS) (e : bool) (F : list byte -> list byte).
Hypothesis cipher_F : forall c x,
  ks c = k0 -> enc c = e -> aligned x -> ciph_cipher c x = Some (F x).
Hypothesis F_app : forall x y, aligned x -> aligned y -> F (x ++ y) = F x ++ F y.

Lemma ecb_length x : aligned x -> length (F x) = length x.
Proof using cipher_F.
  intros Hx.
  apply (ciph_cipher_length (mk_PROV_AES_KEY k0 0 e [] [] 0 0 true)).
  by apply cipher_F.
Qed.

Lemma ecb_concat l : Forall aligned l -> F (concat l) = concat (map F l).
Proof using cipher_F F_app.
  induction 1 as [|x l Hx Hl IH]; simpl.
  - apply nil_length_inv. by rewrite ecb_length.
  - rewrite F_app, IH; [done | done | by apply aligned_concat].
Qed.

Lemma ecb_outs c l outs :
  ks c = k0 -> enc c = e -> Forall aligned l ->
  Forall2 (transformed c) l outs -> concat outs = F (concat l).
Proof using cipher_F F_app.
  intros Hk He Hal Houts. rewrite ecb_concat by done. f_equal.
  induction Houts as [|x o l outs (c' & Hss & Hc) _ IH]; [done|].
  apply Forall_cons in Hal as [Hx Hal]. simpl. rewrite IH by done. f_equal.
  destruct Hss as (Hks & _ & Henc & _).
  rewrite cipher_F in Hc by congruence. by injection Hc.
Qed.

Lemma ecb_total c c' x : ks c = k0 -> enc c = e ->
  same_stream c c' -> aligned x -> is_Some (ciph_cipher c' x).
Proof using cipher_F.
  intros Hk He (Hks & _ & Henc & _) Hx. rewrite cipher_F by congruence. eauto.
Qed.

End ecb.

(** The ciphertext of a padded encrypt stream. *)
Lemma encrypt_stream c chunks :
  wf c -> bufsz c = 0 -> enc c = true -> pad c = true -> ks c = ke ->
  let data := concat chunks in
  let p := AES_BLOCK_SIZE - length data mod AES_BLOCK_SIZE in
  exists l, stream_run c chunks = Some (E (data ++ replicate p (byte_of_nat p)), l).
Proof using cipher_enc E_app.
  intros Hwf Hz He Hp Hk data p.
  destruct (stream_run_padded_total c chunks Hwf Hz He Hp) as [[o l] Hrun].
  { intros c' x. by apply (ecb_total ke true E). }
  destruct (stream_run_padded c chunks o l Hwf Hz He Hp Hrun)
    as (Hl & _ & outs & Houts & -> & Hal).
  exists l. rewrite Hrun. do 2 f_equal.
  rewrite (ecb_outs ke true E cipher_enc E_app c l) by done.
  by rewrite Hl.
Qed.

(** Decrypting a whole number of blocks whose plaintext ends in a valid
    padding gives the plaintext without the padding. *)
Lemma decrypt_stream c chunks data p :
  wf c -> bufsz c = 0 -> enc c = false -> pad c = true -> ks c = kd ->
  1 <= p <= AES_BLOCK_SIZE ->
  aligned (concat chunks) ->
  D (concat chunks) = data ++ replicate p (byte_of_nat p) ->
  exists l, stream_run c chunks = Some (data, l).
Proof using cipher_dec D_app.
  intros Hwf Hz He Hp Hk Hrange Hal HD.
  set (C := concat chunks) in *.
  assert (Hhold : holdback c = true) by (unfold holdback; by rewrite He, Hp).
  assert (Hheld : bufsz c = AES_BLOCK_SIZE -> holdback c = true) by by intros.
  assert (Hlen : length C = length data + p).
  { rewrite <- (ecb_length kd false D cipher_dec C Hal), HD.
    by rewrite length_app, length_replicate. }
  destruct (stream_updates_total chunks c Hwf) as [[[c' o1] l1] Hup].
  { intros c' x. by apply (ecb_total kd false D). }
  destruct (stream_updates_spec _ _ _ _ _ Hwf Hheld Hup)
    as (Hwf' & Hss & Hal1 & _ & Hl & Hpend & Hlo & outs & Houts & Ho).
  assert (Hnil : pending c = []) by (unfold pending; by rewrite Hz).
  rewrite Hnil, Hhold in Hl, Hpend, Hlo. simpl in Hl, Hpend, Hlo.
  fold C in Hl, Hpend, Hlo.
  set (k := length C - AES_BLOCK_SIZE).
  assert (Hkk : (length C - 1) / AES_BLOCK_SIZE * AES_BLOCK_SIZE = k).
  { unfold k, aligned in *. blia. }
  rewrite Hkk in Hl, Hpend, Hlo.
  assert (Hk_le : k <= length data) by (unfold k; lia).
  assert (Hk_al : k mod AES_BLOCK_SIZE = 0) by (unfold k, aligned in *; blia).
  (* the plaintext of the two parts *)
  assert (Ho1 : o1 = take k data).
  { rewrite Ho, (ecb_outs kd false D cipher_dec D_app c l1 outs) by done.
    rewrite Hl.
    assert (Hsplit : D (take k C) ++ D (drop k C) = data ++ replicate p (byte_of_nat p)).
    { rewrite <- D_app, take_drop; [done | apply aligned_take; [done | lia] |].
      unfold aligned in *. rewrite length_drop. unfold k. blia. }
    apply (f_equal (take k)) in Hsplit.
    rewrite take_app_length' in Hsplit.
    2:{ rewrite (ecb_length kd false D cipher_dec) by (apply aligned_take; [done | lia]).
        rewrite length_take. lia. }
    by rewrite Hsplit, take_app_le. }
  assert (Hpt : D (pending c') = drop k data ++ replicate p (byte_of_nat p)).
  { rewrite Hpend.
    assert (Hsplit : D (take k C) ++ D (drop k C) = data ++ replicate p (byte_of_nat p)).
    { rewrite <- D_app, take_drop; [done | apply aligned_take; [done | lia] |].
      unfold aligned in *. rewrite length_drop. unfold k. blia. }
    apply (f_equal (drop k)) in Hsplit.
    rewrite drop_app_length' in Hsplit.
    2:{ rewrite (ecb_length kd false D cipher_dec) by (apply aligned_take; [done | lia]).
        rewrite length_take. lia. }
    by rewrite Hsplit, drop_app_le. }
  set (pt := drop k data ++ replicate p (byte_of_nat p)) in *.
  assert (Hd : length (drop k data) = AES_BLOCK_SIZE - p).
  { rewrite length_drop. unfold k, aligned in *. blia. }
  assert (Hfull : bufsz c' = AES_BLOCK_SIZE).
  { rewrite <- (pending_length c' Hwf'), Hpend, length_drop. unfold k, aligned in *. blia. }
  assert (Hpl : pad_length pt = p).
  { unfold pad_length, pt.
    rewrite app_nth2 by lia. rewrite Hd.
    rewrite (nth_lookup_Some _ _ _ (byte_of_nat p))
      by (apply lookup_replicate_2; blia).
    apply to_nat_byte_of_nat. blia. }
  assert (Hvalid : valid_padding pt).
  { unfold valid_padding. rewrite Hpl. split; [done|].
    unfold pt. by rewrite <- Hd, drop_app_length. }
  destruct Hss as (Hks & _ & He' & _ & _ & Hp').
  destruct (aes_final_decrypt_cases c' Hwf') as (_ & _ & _ & Hcases); [congruence|].
  specialize (Hcases Hfull).
  rewrite (cipher_dec c' (pending c')) in Hcases; [|congruence..| ].
  2:{ unfold aligned. rewrite pending_length by done. rewrite Hfull. blia. }
  rewrite Hpt in Hcases. destruct Hcases as (_ & Hr & _).
  specialize (Hr ltac:(congruence) Hvalid). cbv zeta in Hr.
  unfold stream_run. rewrite Hup. simpl. rewrite Hr.
  unfold retval, emitted, out_of, outl_of, log_of. simpl.
  eexists. do 2 f_equal.
  rewrite Hpl, take_take, Nat.min_id. unfold pt.
  rewrite <- Hd, take_app_length. by rewrite Ho1, take_drop.
Qed.


Lemma aes_einit_frame c key v :
  let c' := snd (aes_einit c key v) in
  buf c' = buf c /\ bufsz c' = bufsz c /\ pad c' = pad c /\ enc c' = true.
Proof.
  unfold aes_einit, PROV_AES_KEY_generic_init.
  destruct key, v; simpl; try destruct (ciph_init _ _ _); done.
Qed.

Lemma aes_dinit_frame c key v :
  let c' := snd (aes_dinit c key v) in
  buf c' = buf c /\ bufsz c' = bufsz c /\ pad c' = pad c /\ enc c' = false.
Proof.
  unfold aes_dinit, PROV_AES_KEY_generic_init.
  destruct key, v; simpl; try destruct (ciph_init _ _ _); done.
Qed.

(** C1: with padding enabled, encrypting a plaintext split in any way into
    update calls and decrypting the ciphertext, itself split in any way,
    gives back exactly the plaintext.  [E] and [D] are the block-wise
    encryption and decryption that the transform computes for the key. *)
Theorem round_trip c1 c2 key iv_e iv_d chunks ce cd :
  wf c1 -> bufsz c1 = 0 -> pad c1 = true ->
  aes_einit c1 key iv_e = (true, ce) -> ks ce = ke ->
  wf c2 -> bufsz c2 = 0 -> pad c2 = true ->
  aes_dinit c2 key iv_d = (true, cd) -> ks cd = kd ->
  let plain := concat chunks in
  exists cipher,
    encrypt c1 key iv_e chunks = Some cipher /\
    length cipher
      = length plain + (AES_BLOCK_SIZE - length plain mod AES_BLOCK_SIZE) /\
    forall chunks', concat chunks' = cipher ->
      decrypt c2 key iv_d chunks' = Some plain.
Proof using All.
  intros [Hlen1 Hle1] Hz1 Hp1 Hei Hke [Hlen2 Hle2] Hz2 Hp2 Hdi Hkd plain.
  pose proof (aes_einit_frame c1 key iv_e) as He. rewrite Hei in He.
  destruct He as (Hb1 & Hn1 & Hpad1 & Henc1). simpl in *.
  pose proof (aes_dinit_frame c2 key iv_d) as Hd. rewrite Hdi in Hd.
  destruct Hd as (Hb2 & Hn2 & Hpad2 & Henc2). simpl in *.
  assert (Hwfe : wf ce) by (split; congruence).
  assert (Hwfd : wf cd) by (split; congruence).
  set (p := AES_BLOCK_SIZE - length plain mod AES_BLOCK_SIZE).
  set (padded := plain ++ replicate p (byte_of_nat p)).
  assert (Hrange : 1 <= p <= AES_BLOCK_SIZE) by (unfold p; blia).
  assert (Hal : aligned padded).
  { unfold aligned, padded. rewrite length_app, length_replicate. unfold p. blia. }
  assert (HlenE : length (E padded) = length padded).
  { by apply (ecb_length ke true E cipher_enc). }
  destruct (encrypt_stream ce chunks) as [l Hrun]; [done | congruence.. | done |].
  fold plain p padded in Hrun.
  exists (E padded). split_and!.
  - unfold encrypt. rewrite Hei, Hrun. done.
  - rewrite HlenE. unfold padded. by rewrite length_app, length_replicate.
  - intros chunks' Hcat.
    destruct (decrypt_stream cd chunks' plain p) as [l' Hrun'];
      [done | congruence.. | done | done | | | ].
    + rewrite Hcat. unfold aligned. rewrite HlenE. exact Hal.
    + rewrite Hcat. by apply D_E.
    + unfold decrypt. rewrite Hdi, Hrun'. done.
Qed.

End round_trip.

(** * The properties on concrete runs *)

Lemma toy_flip_involutive b : toy_flip (toy_flip b) = b.
Proof. by destruct b. Qed.

Lemma toy_cipher_keyed (c : PROV_AES_KEY bool) x :
  ks c = true -> ciph_cipher c x = Some (map toy_flip x).
Proof. intros Hk. simpl. by rewrite Hk. Qed.

Lemma toy_flip_app (x y : list byte) :
  map toy_flip (x ++ y) = map toy_flip x ++ map toy_flip y.
Proof. apply map_app. Qed.

Lemma toy_flip_inverse (x : list byte) : map toy_flip (map toy_flip x) = x.
Proof.
  induction x as [|b x IH]; simpl; [done|]. by rewrite toy_flip_involutive, IH.
Qed.

Lemma toy_new_wf : wf toy_new.
Proof. split; vm_compute; [reflexivity | lia]. Qed.

Lemma toy_enc_wf : wf toy_enc.
Proof. split; vm_compute; [reflexivity | lia]. Qed.

Lemma toy_dec_wf : wf toy_dec.
Proof. split; vm_compute; [reflexivity | lia]. Qed.

Lemma toy_held_wf : wf toy_held.
Proof. split; vm_compute; [reflexivity | lia]. Qed.

Lemma toy_unkeyed_wf : wf toy_unkeyed.
Proof. split; vm_compute; [reflexivity | lia]. Qed.

(** The round trip of three chunks on the small cipher. *)
Lemma round_trip_witness :
  wf toy_new /\
  aes_einit toy_new (Some toy_key) None = (true, toy_enc) /\
  aes_dinit toy_new (Some toy_key) None = (true, toy_dec) /\
  exists cipher,
    encrypt toy_new (Some toy_key) None [hello; toy_block; hello] = Some cipher /\
    length cipher
      = length (concat [hello; toy_block; hello])
        + (AES_BLOCK_SIZE - length (concat [hello; toy_block; hello]) mod AES_BLOCK_SIZE) /\
    forall chunks', concat chunks' = cipher ->
      decrypt toy_new (Some toy_key) None chunks'
        = Some (concat [hello; toy_block; hello]).
Proof.
  split; [exact toy_new_wf|]. split; [reflexivity|]. split; [reflexivity|].
  apply (round_trip (H := toy_cipher) true true (map toy_flip) (map toy_flip)
           (fun c x Hk _ _ => toy_cipher_keyed c x Hk)
           (fun c x Hk _ _ => toy_cipher_keyed c x Hk)
           (fun x y _ _ => toy_flip_app x y)
           (fun x y _ _ => toy_flip_app x y)
           (fun x _ => toy_flip_inverse x)
           toy_new toy_new (Some toy_key) None None [hello; toy_block; hello]
           toy_enc toy_dec).
  - split; vm_compute; [reflexivity | lia].
  - reflexivity.
  - reflexivity.
  - reflexivity.
  - reflexivity.
  - split; vm_compute; [reflexivity | lia].
  - reflexivity.
  - reflexivity.
  - reflexivity.
  - reflexivity.
Defined.

(** Three chunks that end on a block boundary: the last block is pending. *)
Lemma holdback_invariant_witness :
  wf toy_dec /\
  exists c' o l,
    stream_updates toy_dec [hello; toy_block; replicate 11 x09] = Some (c', o, l) /\
    concat l ++ pending c' = concat [hello; toy_block; replicate 11 x09] /\
    bufsz c' = AES_BLOCK_SIZE /\
    pending c' = drop 16 (concat [hello; toy_block; replicate 11 x09]).
Proof.
  split; [exact toy_dec_wf|].
  destruct (stream_updates toy_dec [hello; toy_block; replicate 11 x09])
    as [[[c' o] l]|] eqn:Hrun; [|vm_compute in Hrun; discriminate].
  exists c', o, l. split; [reflexivity|].
  pose proof (holdback_invariant (H := toy_cipher) toy_dec
                [hello; toy_block; replicate 11 x09] c' o l
                toy_dec_wf eq_refl eq_refl eq_refl Hrun) as Hh.
  destruct Hh as (Hcat & _ & Hlast & _).
  split; [exact Hcat|]. apply Hlast; [discriminate | reflexivity].
Defined.

(** A held block whose plaintext carries no valid padding is rejected. *)
Lemma final_decrypt_witness :
  wf toy_held /\ enc toy_held = false /\
  aes_final (enter toy_held)
    = (None, mk_call (set_buf toy_held (map toy_flip toy_block)) [] None [toy_block]).
Proof.
  split; [exact toy_held_wf|]. split; [reflexivity|].
  pose proof (final_decrypt (H := toy_cipher) toy_held toy_held_wf eq_refl) as Hf.
  destruct Hf as (_ & _ & _ & Hfull).
  specialize (Hfull eq_refl). simpl in Hfull.
  destruct Hfull as (_ & _ & Hbad). apply Hbad; [reflexivity|].
  intros [[Hlo Hhi] _]. vm_compute in Hhi. lia.
Defined.

(** Five pending bytes are padded and emitted as one block. *)
Lemma final_encrypt_witness :
  wf (ctx_of (aes_update hello (enter toy_enc))) /\
  outl_of (aes_final (enter (ctx_of (aes_update hello (enter toy_enc))))) = Some 16 /\
  bufsz (ctx_of (aes_final (enter (ctx_of (aes_update hello (enter toy_enc)))))) = 0.
Proof.
  assert (Hwf : wf (ctx_of (aes_update hello (enter toy_enc))))
    by (split; vm_compute; [reflexivity | lia]).
  split; [exact Hwf|].
  pose proof (final_encrypt (H := toy_cipher) _ Hwf eq_refl) as Hf.
  destruct Hf as (_ & _ & _ & _ & Hok).
  destruct (Hok eq_refl) as (Hz & _ & Houtl).
  split; [|exact Hz]. rewrite Houtl. reflexivity.
Defined.

(** Twenty-one bytes: one block transformed, five bytes retained. *)
Lemma update_accounts_witness :
  wf toy_enc /\
  concat (log_of (aes_update (hello ++ toy_block) (enter toy_enc)))
    ++ pending (ctx_of (aes_update (hello ++ toy_block) (enter toy_enc)))
  = pending toy_enc ++ hello ++ toy_block /\
  outl_of (aes_update (hello ++ toy_block) (enter toy_enc)) = Some 16.
Proof.
  split; [exact toy_enc_wf|].
  pose proof (update_accounts (H := toy_cipher) toy_enc (hello ++ toy_block) toy_enc_wf) as Hu.
  destruct Hu as (Hok & _ & _).
  destruct (Hok eq_refl) as (Hacc & _ & _ & Houtl & _).
  split; [exact Hacc|]. rewrite Houtl. reflexivity.
Defined.

(** C5, as stated, fails: five bytes are pending on an encrypt context
    without key; an [update] of eleven more bytes completes the block in
    pending and the transform refuses it.  Every input byte is retained,
    none was dropped, and the call returns 0. *)
Lemma update_fails_with_all_input_retained :
  wf toy_unkeyed /\
  retval (aes_update toy_more (enter toy_unkeyed)) = false /\
  pending (ctx_of (aes_update toy_more (enter toy_unkeyed)))
    = pending toy_unkeyed ++ toy_more /\
  accounted toy_unkeyed toy_more (aes_update toy_more (enter toy_unkeyed)) /\
  ~ (retval (aes_update toy_more (enter toy_unkeyed)) = true <->
     accounted toy_unkeyed toy_more (aes_update toy_more (enter toy_unkeyed))).
Proof.
  assert (Hacc : accounted toy_unkeyed toy_more
                   (aes_update toy_more (enter toy_unkeyed))).
  { exists []. split; [apply prefix_nil | reflexivity]. }
  split_and!; [exact toy_unkeyed_wf | reflexivity | reflexivity | exact Hacc |].
  intros [_ Hback]. specialize (Hback Hacc). vm_compute in Hback. discriminate.
Defined.

(** Twenty-one bytes are followed by eleven bytes of value eleven. *)
Lemma padding_scheme_witness :
  wf toy_enc /\
  (forall o l, stream_run toy_enc [hello; toy_block] = Some (o, l) ->
     concat l = (hello ++ toy_block) ++ replicate 11 (byte_of_nat 11) /\
     length o = 32) /\
  is_Some (stream_run toy_enc [hello; toy_block]).
Proof.
  split; [exact toy_enc_wf|].
  pose proof (padding_scheme (H := toy_cipher) toy_enc [hello; toy_block]
                toy_enc_wf eq_refl eq_refl eq_refl) as Hp.
  destruct Hp as (_ & _ & Hrun & _).
  split.
  - intros o l Hol. destruct (Hrun o l Hol) as [Hl Ho].
    rewrite Hl, Ho. split; vm_compute; reflexivity.
  - vm_compute. eexists. reflexivity.
Defined.

(** The bound holds after a change of direction in mid-stream. *)
Lemma pending_bounded_witness :
  reachable (P := toy_param) toy_redirected /\
  bufsz toy_redirected <= AES_BLOCK_SIZE /\
  length (pending toy_redirected) = bufsz toy_redirected /\
  length (buf toy_redirected) = AES_BLOCK_SIZE.
Proof.
  assert (Hreach : reachable (P := toy_param) toy_redirected).
  { exact (reach_step _ (call_einit None None)
             (reach_step _ (call_update toy_block)
                (reach_step _ (call_dinit (Some toy_key) None)
                   (reach_new 128 (or_introl eq_refl))))). }
  split; [exact Hreach|].
  exact (pending_bounded (P := toy_param) toy_redirected Hreach).
Defined.

(** An integer padding parameter, a string one, and none. *)
Lemma padding_parameter_witness :
  toy_param_list !! 1 = Some (toy_int "padding" 0) /\
  aes_set_params toy_held toy_param_list = (true, set_pad toy_held false) /\
  aes_get_params toy_held toy_param_list
    = (true, <[1 := toy_int "padding" 1]> toy_param_list) /\
  aes_set_params toy_held (drop 2 toy_param_list) = (false, toy_held) /\
  aes_set_params toy_held (take 1 toy_param_list) = (true, toy_held).
Proof.
  split; [reflexivity|].
  destruct (padding_parameter (H0 := toy_params) toy_held toy_param_list) as [Hat _].
  destruct (Hat 1 (toy_int "padding" 0) eq_refl eq_refl) as (_ & Hset & Hget).
  { repeat constructor. discriminate. }
  split; [exact (Hset 0%Z eq_refl)|]. split; [exact Hget|].
  destruct (padding_parameter (H0 := toy_params) toy_held (drop 2 toy_param_list))
    as [Hat' _].
  destruct (Hat' 0 (toy_utf8 "padding" "no") eq_refl eq_refl) as (Hbad & _).
  { constructor. }
  split; [exact (Hbad eq_refl)|].
  destruct (padding_parameter (H0 := toy_params) toy_held (take 1 toy_param_list))
    as [_ Hnone].
  apply Hnone. repeat constructor. discriminate.
Defined.

(** A zero-length update on a held block changes nothing. *)
Lemma update_empty_no_op_witness :
  wf toy_dec /\
  stream_updates toy_dec [toy_block]
    = Some (toy_held, [], []) /\
  bufsz toy_held = AES_BLOCK_SIZE /\
  aes_update [] (enter toy_held) = no_op toy_held.
Proof.
  split; [exact toy_dec_wf|]. split; [reflexivity|]. split; [reflexivity|].
  apply (update_empty_no_op (H := toy_cipher) toy_dec [toy_block] toy_held [] []).
  - exact toy_dec_wf.
  - reflexivity.
  - reflexivity.
Defined.

(** C10, as stated, fails: a decrypt stream holds a block back, the context
    is then initialised for encryption (the padding flag is never touched);
    a zero-length [update] now hands the block to the transform, reports 16
    bytes and empties pending. *)
Lemma update_empty_flushes_after_reinit :
  reachable (P := toy_param) toy_redirected /\
  pad toy_redirected = pad toy_new /\
  bufsz toy_redirected = AES_BLOCK_SIZE /\
  retval (aes_update [] (enter toy_redirected)) = true /\
  outl_of (aes_update [] (enter toy_redirected)) = Some AES_BLOCK_SIZE /\
  log_of (aes_update [] (enter toy_redirected)) = [toy_block] /\
  bufsz (ctx_of (aes_update [] (enter toy_redirected))) = 0 /\
  aes_update [] (enter toy_redirected) <> no_op toy_redirected.
Proof.
  split_and!; try reflexivity.
  - exact (reach_step _ (call_einit None None)
             (reach_step _ (call_update toy_block)
                (reach_step _ (call_dinit (Some toy_key) None)
                   (reach_new 128 (or_introl eq_refl))))).
  - intros Heq. apply (f_equal outl_of) in Heq. vm_compute in Heq. discriminate.
Defined.

(** * Further properties of aes.c *)

(** ** update: what is written, and when the transform is called *)

Section update_more.
Context {KS : Type} `{PROV_AES_CIPHER KS}.
Implicit Types c : PROV_AES_KEY KS.

Ltac tail_of Hr buf2 Hlen2 Htk :=
  match type of Hr with
  | _ = match trailingdata ?b ?n _ ?x with _ => _ end _ =>
      let Htd := fresh "Htd" in
      destruct (trailingdata_spec b n x) as (buf2 & Htd & Hlen2 & Htk);
      [ | | rewrite Htd in Hr; simpl in Hr; subst;
          unfold ret, retval, ctx_of, out_of, outl_of, log_of; simpl ]
  end.

(** A failing [update] has not stored [*outl], and has written at most the
    block that was pending. *)
Lemma aes_update_failure c inp :
  wf c ->
  let r := aes_update inp (enter c) in
  retval r = false ->
  outl_of r = None /\ length (out_of r) <= bufsz c + length inp /\
  length (out_of r) <= AES_BLOCK_SIZE.
Proof.
  intros [Hlen Hle] r.
  remember r as r' eqn:Hr. subst r. rename r' into r.
  unfold aes_update, mbind, M_bind, bindM in Hr. simpl in Hr.
  destruct (fillblock _ _ _ _) as [[[nb buf1] n1] rest] eqn:Hfb.
  destruct (fillblock_spec _ _ _ _ _ _ _ Hlen Hle Hfb)
    as (Hlen1 & Hle1 & _ & Hfull & Hsum & Hnb).
  rewrite <- Hsum. clear Hsum Hfb.
  simpl in Hr.
  destruct ((n1 =? AES_BLOCK_SIZE) && _) eqn:Hflush in Hr.
  - apply andb_true_iff in Hflush as [Hn1 _]. apply Nat.eqb_eq in Hn1.
    unfold cipher_call in Hr at 1. simpl in Hr.
    destruct (ciph_cipher _ (take AES_BLOCK_SIZE buf1)) as [o1|] eqn:Hc1.
    2:{ subst r. unfold retval, out_of, outl_of. simpl. intros _.
        split_and!; [done | lia | lia]. }
    apply ciph_cipher_length in Hc1. rewrite length_take in Hc1.
    simpl in Hr.
    destruct (0 <? nb) eqn:Hnb0.
    + simpl in Hr. apply Nat.ltb_lt in Hnb0.
      destruct (negb (enc c) && pad c && (nb =? length rest)) eqn:Hhold.
      * apply andb_true_iff in Hhold as [Hhold Heq]. apply Nat.eqb_eq in Heq.
        unfold ossl_assert, require in Hr.
        destruct (AES_BLOCK_SIZE <=? length rest) eqn:Hass.
        2:{ apply Nat.leb_gt in Hass. blia. }
        simpl in Hr. unfold cipher_call in Hr. simpl in Hr.
        destruct (ciph_cipher _ (take (nb - AES_BLOCK_SIZE) rest)) as [o2|] eqn:Hc2.
        -- simpl in Hr. tail_of Hr buf2 Hlen2 Htk.
           { done. } { rewrite length_drop. blia. }
           done.
        -- subst r. unfold retval, out_of, outl_of. simpl. intros _.
           split_and!; [done | lia | lia].
      * unfold cipher_call in Hr. simpl in Hr.
        destruct (ciph_cipher _ (take nb rest)) as [o2|] eqn:Hc2.
        -- simpl in Hr. tail_of Hr buf2 Hlen2 Htk.
           { done. } { rewrite length_drop. blia. }
           done.
        -- subst r. unfold retval, out_of, outl_of. simpl. intros _.
           split_and!; [done | lia | lia].
    + simpl in Hr. apply Nat.ltb_ge in Hnb0.
      tail_of Hr buf2 Hlen2 Htk.
      { done. } { blia. }
      done.
  - simpl in Hr.
    assert (Hrest : rest = []).
    { apply andb_false_iff in Hflush as [Hne | Hcond].
      - apply Nat.eqb_neq in Hne. by destruct Hfull.
      - apply orb_false_iff in Hcond as [Hcond _].
        apply orb_false_iff in Hcond as [_ Hz].
        apply Nat.ltb_ge in Hz. apply nil_length_inv. lia. }
    subst rest. simpl in Hnb.
    assert (nb = 0) as -> by blia. simpl in Hr.
    tail_of Hr buf2 Hlen2 Htk.
    { done. } { simpl. lia. }
    done.
Qed.

(** X1: [update] never writes more than the pending bytes plus the input,
    so an output buffer of [inl + AES_BLOCK_SIZE] bytes always suffices; on
    success [*outl] is exactly the number of bytes written, on failure
    [*outl] is left untouched and at most one block was written. *)
Theorem update_output_bound c inp :
  wf c ->
  let r := aes_update inp (enter c) in
  length (out_of r) <= bufsz c + length inp /\
  length (out_of r) <= length inp + AES_BLOCK_SIZE /\
  (retval r = true -> outl_of r = Some (length (out_of r))) /\
  (retval r = false -> outl_of r = None /\ length (out_of r) <= AES_BLOCK_SIZE).
Proof.
  intros Hwf r.
  assert (Hb : length (out_of r) <= bufsz c + length inp /\
               (retval r = true -> outl_of r = Some (length (out_of r))) /\
               (retval r = false -> outl_of r = None /\ length (out_of r) <= AES_BLOCK_SIZE)).
  { destruct (retval r) eqn:Hok.
    - destruct (aes_update_success c inp Hwf Hok) as (_ & _ & Houtl & _ & Hlo & _).
      fold r in Houtl, Hlo. split_and!; [| by rewrite Hlo | done].
      rewrite Hlo. etrans; [apply nflush_le|].
      rewrite length_app, pending_length by done. lia.
    - destruct (aes_update_failure c inp Hwf Hok) as (Houtl & Hlo & Hone).
      fold r in Houtl, Hlo, Hone. by split_and!. }
  destruct Hb as (Hb & Hs & Hf). destruct Hwf as [_ Hle].
  split_and!; [done | lia | done | done].
Qed.

(** X2: with fewer than 16 bytes available (pending plus input), [update]
    succeeds without calling the transform, whatever the transform or key
    state, writes nothing, reports zero bytes and appends the input to
    pending. *)
Theorem update_below_one_block c inp :
  wf c -> bufsz c + length inp < AES_BLOCK_SIZE ->
  let r := aes_update inp (enter c) in
  retval r = true /\ log_of r = [] /\ out_of r = [] /\ outl_of r = Some 0 /\
  pending (ctx_of r) = pending c ++ inp /\
  bufsz (ctx_of r) = bufsz c + length inp.
Proof.
  intros [Hlen Hle] Hshort r.
  remember r as r' eqn:Hr. subst r. rename r' into r.
  unfold aes_update, mbind, M_bind, bindM in Hr. simpl in Hr.
  destruct (fillblock _ _ _ _) as [[[nb buf1] n1] rest] eqn:Hfb.
  destruct (fillblock_spec _ _ _ _ _ _ _ Hlen Hle Hfb)
    as (Hlen1 & Hle1 & Hdata & Hfull & Hsum & Hnb).
  assert (Hn1 : n1 <> AES_BLOCK_SIZE) by lia.
  destruct Hfull as [|Hrest]; [done|]. subst rest.
  simpl in Hnb, Hsum. assert (nb = 0) as -> by blia.
  rewrite app_nil_r in Hdata. rewrite Nat.add_0_r in Hsum.
  simpl in Hr. apply Nat.eqb_neq in Hn1. rewrite Hn1 in Hr. simpl in Hr.
  rewrite trailingdata_nil in Hr. simpl in Hr.
  subst r. unfold ret, retval, ctx_of, out_of, outl_of, log_of, pending. simpl.
  by split_and!.
Qed.

(** X3: after a successful [update] the number of pending bytes depends
    only on the number [n] of bytes available: [n mod 16] (always less than
    a block) when encrypting or without padding, and, when decrypting with
    padding, between 1 and 16 with [n - pending] a multiple of 16, unless
    nothing was available. *)
Theorem update_pending_count c inp :
  wf c ->
  let r := aes_update inp (enter c) in
  let n := bufsz c + length inp in
  retval r = true ->
  (holdback c = false -> bufsz (ctx_of r) = n mod AES_BLOCK_SIZE) /\
  (holdback c = true -> n = 0 -> bufsz (ctx_of r) = 0) /\
  (holdback c = true -> 0 < n ->
     bufsz (ctx_of r) = (n - 1) mod AES_BLOCK_SIZE + 1).
Proof.
  intros Hwf r n Hok.
  destruct (aes_update_success c inp Hwf Hok) as (_ & Hp & _).
  apply (f_equal length) in Hp.
  rewrite pending_length, length_drop, length_app, pending_length in Hp
    by (done || by apply aes_update_wf).
  fold r n in Hp. rewrite Hp. unfold nflush.
  split_and!; intros Hh; rewrite Hh; intros; blia.
Qed.

End update_more.

(** ** final: what it writes, and calling it again *)

Section final_more.
Context {KS : Type} `{PROV_AES_CIPHER KS}.
Implicit Types c : PROV_AES_KEY KS.

Ltac observe := unfold retval, ctx_of, out_of, outl_of, log_of; simpl.

(** Everything a caller can observe of [final], on every path. *)
Lemma aes_final_facts c :
  wf c ->
  let r := aes_final (enter c) in
  same_stream c (ctx_of r) /\
  length (out_of r) <= AES_BLOCK_SIZE /\
  length (log_of r) <= 1 /\
  Forall (fun x => length x = AES_BLOCK_SIZE) (log_of r) /\
  (retval r = true ->
     outl_of r = Some (length (out_of r)) /\ bufsz (ctx_of r) = 0) /\
  (retval r = false -> outl_of r = None /\ out_of r = []).
Proof.
  intros Hwf r. subst r. pose proof Hwf as [Hlen Hle].
  destruct (enc c) eqn:He.
  - destruct (aes_final_encrypt_cases c Hwf He) as (Hpad & Hempty & Hpart & Hfull & _).
    destruct (pad c) eqn:Hp.
    + destruct (Hpad eq_refl) as [Hblk Hr]. clear Hpad Hempty Hpart Hfull.
      revert Hr. cbv zeta.
      destruct (ciph_cipher _ _) as [o|] eqn:Hc; intros ->; observe.
      * apply ciph_cipher_length in Hc.
        split_and!; try done; try lia; [by repeat constructor | ].
        intros _. split; [f_equal; lia | done].
      * split_and!; try done; try (simpl; lia). by repeat constructor.
    + destruct (decide (bufsz c = 0)) as [Hz|Hz].
      { rewrite (Hempty eq_refl Hz). observe.
        split_and!; try done; simpl; lia. }
      destruct (decide (bufsz c = AES_BLOCK_SIZE)) as [Hf|Hf].
      * specialize (Hfull eq_refl Hf). clear Hpad Hempty Hpart. revert Hfull.
        pose proof (pending_length c Hwf) as Hpl.
        destruct (ciph_cipher _ _) as [o|] eqn:Hc; intros ->; observe.
        -- apply ciph_cipher_length in Hc.
           split_and!; try done; try lia; [repeat constructor; lia | ].
           intros _. split; [f_equal; lia | done].
        -- split_and!; try done; try (simpl; lia). repeat constructor. lia.
      * rewrite (Hpart eq_refl Hz Hf). observe.
        split_and!; try done; simpl; lia.
  - destruct (aes_final_decrypt_cases c Hwf He) as (_ & Hempty & Hbad & Hfull).
    destruct (decide (bufsz c = AES_BLOCK_SIZE)) as [Hf|Hf].
    + specialize (Hfull Hf). pose proof (pending_length c Hwf) as Hpl.
      destruct (ciph_cipher c (pending c)) as [pt|] eqn:Hc.
      2:{ rewrite Hfull. observe.
          split_and!; try done; try (simpl; lia). repeat constructor. lia. }
      assert (Hpt : length pt = AES_BLOCK_SIZE).
      { apply ciph_cipher_length in Hc. lia. }
      destruct Hfull as (Hnopad & Hvalid & Hinvalid).
      destruct (pad c) eqn:Hp.
      * destruct (decide (valid_padding pt)) as [Hv|Hv].
        -- rewrite (Hvalid eq_refl Hv). observe. rewrite length_take.
           split_and!; try done; try lia; [repeat constructor; lia | ].
           intros _. split; [f_equal; lia | done].
        -- rewrite (Hinvalid eq_refl Hv). observe.
           split_and!; try done; try (simpl; lia). repeat constructor. lia.
      * rewrite (Hnopad eq_refl). observe.
        split_and!; try done; try lia; [repeat constructor; lia | ].
        intros _. split; [f_equal; lia | done].
    + destruct (decide (pad c = false /\ bufsz c = 0)) as [[Hp Hz]|Hno].
      * rewrite (Hempty Hp Hz). observe. split_and!; try done; simpl; lia.
      * rewrite (Hbad Hf Hno). observe. split_and!; try done; simpl; lia.
Qed.

(** X8: [final] calls the transform at most once, on exactly one block,
    and writes at most [AES_BLOCK_SIZE] bytes; on success [*outl] is the
    number of bytes written; on failure nothing was written through [out]
    and [*outl] is left untouched.  Only the pending buffer and its count
    ever change. *)
Theorem final_output_bound c :
  wf c ->
  let r := aes_final (enter c) in
  same_stream c (ctx_of r) /\
  length (out_of r) <= AES_BLOCK_SIZE /\
  length (log_of r) <= 1 /\
  Forall (fun x => length x = AES_BLOCK_SIZE) (log_of r) /\
  (retval r = true ->
     outl_of r = Some (length (out_of r)) /\ bufsz (ctx_of r) = 0) /\
  (retval r = false -> outl_of r = None /\ out_of r = []).
Proof. exact (aes_final_facts c). Qed.

(** X9: calling [final] again after a successful [final].  An encrypt
    context with padding hands the transform one more block, made of 16
    bytes of value 16; a decrypt context with padding fails without
    calling the transform; without padding the second call succeeds with
    zero bytes and changes nothing. *)
Theorem final_called_twice c :
  wf c ->
  let c' := ctx_of (aes_final (enter c)) in
  let r2 := aes_final (enter c') in
  retval (aes_final (enter c)) = true ->
  (enc c = true -> pad c = true ->
     log_of r2 = [replicate AES_BLOCK_SIZE (byte_of_nat AES_BLOCK_SIZE)] /\
     (retval r2 = true -> outl_of r2 = Some AES_BLOCK_SIZE)) /\
  (enc c = false -> pad c = true -> r2 = (None, enter c')) /\
  (pad c = false -> r2 = (Some tt, mk_call c' [] (Some 0) [])).
Proof.
  intros Hwf c' r2 Hok.
  pose proof (aes_final_wf c Hwf) as Hwf'. fold c' in Hwf'.
  destruct (aes_final_facts c Hwf) as (Hss & _ & _ & _ & Hsucc & _).
  destruct (Hsucc Hok) as [_ Hz]. fold c' in Hss, Hz.
  destruct Hss as (_ & _ & He' & _ & _ & Hp').
  split_and!.
  - intros He Hp.
    destruct (aes_final_encrypt_cases c' Hwf') as (Hpad & _); [congruence|].
    specialize (Hpad ltac:(congruence)). cbv zeta in Hpad.
    unfold pending in Hpad. rewrite Hz, Nat.sub_0_r in Hpad. simpl in Hpad.
    destruct Hpad as [_ Hr]. revert Hr. fold r2.
    destruct (ciph_cipher _ _); intros ->; by split.
  - intros He Hp.
    destruct (aes_final_decrypt_cases c' Hwf') as (_ & _ & Hbad & _); [congruence|].
    apply Hbad; [blia|]. intros [Hno _]. congruence.
  - intros Hp. destruct (enc c') eqn:Hd.
    + destruct (aes_final_encrypt_cases c' Hwf' Hd) as (_ & Hempty & _).
      apply Hempty; [congruence | done].
    + destruct (aes_final_decrypt_cases c' Hwf' Hd) as (_ & Hempty & _).
      apply Hempty; [congruence | done].
Qed.

(** ** Streams that cannot be finished *)

(** X7: a padded decrypt stream, started on empty pending, whose total
    input is empty or not a whole number of blocks never succeeds,
    whatever the transform does: [final] rejects it. *)
Theorem decrypt_rejects_truncated c chunks :
  wf c -> bufsz c = 0 -> enc c = false -> pad c = true ->
  concat chunks = [] \/ ~ aligned (concat chunks) ->
  stream_run c chunks = None.
Proof.
  intros Hwf Hz He Hp Hbadlen. unfold stream_run.
  destruct (stream_updates c chunks) as [[[c' o] l]|] eqn:Hup; [|done]. simpl.
  assert (Hhold : holdback c = true) by (unfold holdback; by rewrite He, Hp).
  assert (Hheld : bufsz c = AES_BLOCK_SIZE -> holdback c = true) by by intros.
  destruct (stream_updates_spec _ _ _ _ _ Hwf Hheld Hup)
    as (Hwf' & Hss & _ & _ & _ & Hpend & _).
  assert (Hnil : pending c = []) by (unfold pending; by rewrite Hz).
  rewrite Hnil, Hhold in Hpend. simpl in Hpend.
  apply (f_equal length) in Hpend.
  rewrite pending_length, length_drop in Hpend by done.
  destruct Hss as (_ & _ & He' & _ & _ & Hp').
  destruct (aes_final_decrypt_cases c' Hwf') as (_ & _ & Hbad & _); [congruence|].
  rewrite Hbad; [done | | intros [Hno _]; congruence].
  rewrite Hpend. unfold nflush.
  destruct Hbadlen as [-> | Hna]; [simpl; blia|].
  unfold aligned in Hna. blia.
Qed.

(** X6: with padding disabled, a stream started on empty pending whose
    total input is not a whole number of blocks never succeeds, in either
    direction and whatever the transform does. *)
Theorem unpadded_rejects_partial_block c chunks :
  wf c -> bufsz c = 0 -> pad c = false ->
  ~ aligned (concat chunks) ->
  stream_run c chunks = None.
Proof.
  intros Hwf Hz Hp Hna. unfold stream_run.
  destruct (stream_updates c chunks) as [[[c' o] l]|] eqn:Hup; [|done]. simpl.
  assert (Hhold : holdback c = false) by (unfold holdback; by rewrite Hp, andb_false_r).
  assert (Hheld : bufsz c = AES_BLOCK_SIZE -> holdback c = true) by (intros; blia).
  destruct (stream_updates_spec _ _ _ _ _ Hwf Hheld Hup)
    as (Hwf' & Hss & _ & _ & _ & Hpend & _).
  assert (Hnil : pending c = []) by (unfold pending; by rewrite Hz).
  rewrite Hnil, Hhold in Hpend. simpl in Hpend.
  apply (f_equal length) in Hpend.
  rewrite pending_length, length_drop in Hpend by done.
  destruct Hss as (_ & _ & He' & _ & _ & Hp').
  assert (Hb : bufsz c' <> 0 /\ bufsz c' <> AES_BLOCK_SIZE).
  { rewrite Hpend. unfold nflush, aligned in *. blia. }
  destruct Hb as [Hb0 Hb16].
  destruct (enc c') eqn:Hd.
  - destruct (aes_final_encrypt_cases c' Hwf' Hd) as (_ & _ & Hpart & _).
    rewrite Hpart; [done | congruence | done | done].
  - destruct (aes_final_decrypt_cases c' Hwf' Hd) as (_ & _ & Hbad & _).
    rewrite Hbad; [done | done | ]. intros [_ Hzero]. done.
Qed.

End final_more.

(** ** Streams under a block-wise transform *)

Section blockwise.
Context {KS : Type} `{PROV_AES_CIPHER KS}.
Implicit Types c : PROV_AES_KEY KS.

(** For the key state [k0] and the direction [e] the transform computes
    [F] on whole blocks, block by block. *)
Variables (k0 : KS) (e : bool) (F : list byte -> list byte).
Hypothesis cipher_F : forall c x,
  ks c = k0 -> enc c = e -> aligned x -> ciph_cipher c x = Some (F x).
Hypothesis F_app : forall x y, aligned x -> aligned y -> F (x ++ y) = F x ++ F y.

(** The updates of a stream in closed form. *)
Lemma stream_updates_blockwise c chunks :
  wf c -> (bufsz c = AES_BLOCK_SIZE -> holdback c = true) ->
  ks c = k0 -> enc c = e ->
  let data := pending c ++ concat chunks in
  let k := nflush (holdback c) (length data) in
  exists c' l,
    stream_updates c chunks = Some (c', F (take k data), l) /\
    wf c' /\ same_stream c c' /\ pending c' = drop k data /\
    bufsz c' = length data - k.
Proof using cipher_F F_app.
  intros Hwf Hheld Hk He data k.
  destruct (stream_updates_total chunks c Hwf) as [[[c' o] l] Hup].
  { intros c2 x. by apply (ecb_total k0 e F). }
  destruct (stream_updates_spec _ _ _ _ _ Hwf Hheld Hup)
    as (Hwf' & Hss & Hal & _ & Hl & Hpend & _ & outs & Houts & Ho).
  fold data k in Hl, Hpend.
  exists c', l. split_and!; [| done | done | done |].
  - rewrite Hup. do 3 f_equal.
    rewrite Ho, (ecb_outs k0 e F cipher_F F_app c l outs) by done.
    by rewrite Hl.
  - by rewrite <- (pending_length c' Hwf'), Hpend, length_drop.
Qed.

(** X4: under a block-wise transform the way the input is split into
    [update] calls is irrelevant: two splittings of the same bytes both
    succeed, emit the same output, namely the transform of the first
    [nflush] bytes available, and leave the same bytes pending. *)
Theorem update_chunking_irrelevant c xs ys :
  wf c -> (bufsz c = AES_BLOCK_SIZE -> holdback c = true) ->
  ks c = k0 -> enc c = e ->
  concat xs = concat ys ->
  let data := pending c ++ concat xs in
  let k := nflush (holdback c) (length data) in
  exists c1 c2 l1 l2,
    stream_updates c xs = Some (c1, F (take k data), l1) /\
    stream_updates c ys = Some (c2, F (take k data), l2) /\
    pending c1 = drop k data /\ pending c2 = drop k data /\
    bufsz c1 = bufsz c2.
Proof using cipher_F F_app.
  intros Hwf Hheld Hk He Heq data k.
  destruct (stream_updates_blockwise c xs Hwf Hheld Hk He)
    as (c1 & l1 & Hx & _ & _ & Hp1 & Hb1).
  destruct (stream_updates_blockwise c ys Hwf Hheld Hk He)
    as (c2 & l2 & Hy & _ & _ & Hp2 & Hb2).
  rewrite <- Heq in Hy, Hp2, Hb2. fold data k in Hx, Hy, Hp1, Hp2, Hb1, Hb2.
  exists c1, c2, l1, l2. split_and!; [done.. | congruence].
Qed.

(** A stream without padding over a whole number of blocks. *)
Lemma stream_run_unpadded c chunks :
  wf c -> bufsz c = 0 -> pad c = false -> ks c = k0 -> enc c = e ->
  aligned (concat chunks) ->
  exists l, stream_run c chunks = Some (F (concat chunks), l).
Proof using cipher_F F_app.
  intros Hwf Hz Hp Hk He Hal.
  assert (Hhold : holdback c = false) by (unfold holdback; by rewrite Hp, andb_false_r).
  assert (Hheld : bufsz c = AES_BLOCK_SIZE -> holdback c = true) by (intros; blia).
  destruct (stream_updates_blockwise c chunks Hwf Hheld Hk He)
    as (c' & l & Hup & Hwf' & Hss & _ & Hb).
  assert (Hnil : pending c = []) by (unfold pending; by rewrite Hz).
  rewrite Hnil, Hhold in Hup, Hb. simpl in Hup, Hb.
  assert (Hkk : length (concat chunks) / AES_BLOCK_SIZE * AES_BLOCK_SIZE
                = length (concat chunks)) by (unfold aligned in Hal; blia).
  rewrite Hkk in Hup, Hb. rewrite take_ge in Hup by lia.
  rewrite Nat.sub_diag in Hb.
  destruct Hss as (_ & _ & He' & _ & _ & Hp').
  assert (Hfin : aes_final (enter c') = (Some tt, mk_call c' [] (Some 0) [])).
  { destruct (enc c') eqn:Hd.
    - destruct (aes_final_encrypt_cases c' Hwf' Hd) as (_ & Hempty & _).
      apply Hempty; [congruence | done].
    - destruct (aes_final_decrypt_cases c' Hwf' Hd) as (_ & Hempty & _).
      apply Hempty; [congruence | done]. }
  unfold stream_run. rewrite Hup. simpl. rewrite Hfin.
  unfold retval, emitted, out_of, outl_of, log_of. simpl.
  rewrite app_nil_r. eauto.
Qed.

End blockwise.

Section unpadded.
Context {KS : Type} `{PROV_AES_CIPHER KS}.
Implicit Types c : PROV_AES_KEY KS.

Variables (ke kd : KS) (E D : list byte -> list byte).
Hypothesis cipher_enc : forall c x,
  ks c = ke -> enc c = true -> aligned x -> ciph_cipher c x = Some (E x).
Hypothesis cipher_dec : forall c x,
  ks c = kd -> enc c = false -> aligned x -> ciph_cipher c x = Some (D x).
Hypothesis E_app : forall x y, aligned x -> aligned y -> E (x ++ y) = E x ++ E y.
Hypothesis D_app : forall x y, aligned x -> aligned y -> D (x ++ y) = D x ++ D y.
Hypothesis D_E : forall x, aligned x -> D (E x) = x.

(** X5: with padding disabled on both sides, a plaintext that is a whole
    number of blocks (possibly empty) encrypts, under any splitting, to a
    ciphertext of the same length, with no block added, and that
    ciphertext decrypts, under any splitting, to the plaintext. *)
Theorem unpadded_round_trip ce cd chunks :
  wf ce -> bufsz ce = 0 -> pad ce = false -> enc ce = true -> ks ce = ke ->
  wf cd -> bufsz cd = 0 -> pad cd = false -> enc cd = false -> ks cd = kd ->
  aligned (concat chunks) ->
  exists cipher l,
    stream_run ce chunks = Some (cipher, l) /\
    length cipher = length (concat chunks) /\
    forall chunks', concat chunks' = cipher ->
      exists l', stream_run cd chunks' = Some (concat chunks, l').
Proof using All.
  intros Hwfe Hze Hpe Hee Hke Hwfd Hzd Hpd Hed Hkd Hal.
  destruct (stream_run_unpadded ke true E cipher_enc E_app ce chunks) as [l Hrun];
    [done..|].
  assert (HlenE : length (E (concat chunks)) = length (concat chunks)).
  { by apply (ecb_length ke true E cipher_enc). }
  exists (E (concat chunks)), l. split_and!; [done | done |].
  intros chunks' Hcat.
  destruct (stream_run_unpadded kd false D cipher_dec D_app cd chunks') as [l' Hrun'];
    [done.. | |].
  - rewrite Hcat. unfold aligned. rewrite HlenE. exact Hal.
  - exists l'. rewrite Hrun', Hcat. by rewrite D_E.
Qed.

End unpadded.

(** ** init and the padding parameter in mid-stream *)

Section init_more.
Context {KS P : Type} `{PROV_AES_CIPHER KS} `{OSSL_PARAM_API P}.
Implicit Types c : PROV_AES_KEY KS.

Lemma generic_init_frame c v d :
  let c' := PROV_AES_KEY_generic_init c v d in
  ks c' = ks c /\ mode c' = mode c /\ enc c' = d /\ buf c' = buf c /\
  bufsz c' = bufsz c /\ keylen c' = keylen c /\ pad c' = pad c /\
  (v = None -> iv c' = iv c) /\
  (forall b, v = Some b -> length (iv c) = AES_BLOCK_SIZE ->
     AES_BLOCK_SIZE <= length b -> iv c' = take AES_BLOCK_SIZE b).
Proof.
  unfold PROV_AES_KEY_generic_init. destruct v as [b|]; simpl.
  - split_and!; try done. intros b' [= <-] Hiv Hb.
    apply memcpy_whole. rewrite length_take. lia.
  - split_and!; try done.
Qed.

(** X10: [einit] and [dinit] never touch the pending buffer, its count, the
    padding flag, the key length or the mode, so an init in mid-stream
    keeps the pending bytes; they set the direction and copy 16 bytes of a
    non-null IV before the key schedule runs, hence also when it fails.
    With a null key they succeed and keep the key state; otherwise status
    and key state are those of the key schedule, run on the context with
    the new direction and IV. *)
Theorem init_keeps_stream_state c key v :
  forall d : bool,
  let r := if d then aes_einit c key v else aes_dinit c key v in
  let c' := snd r in
  buf c' = buf c /\ bufsz c' = bufsz c /\ pad c' = pad c /\
  keylen c' = keylen c /\ mode c' = mode c /\ enc c' = d /\
  (wf c -> wf c') /\
  (v = None -> iv c' = iv c) /\
  (forall b, v = Some b -> length (iv c) = AES_BLOCK_SIZE ->
     AES_BLOCK_SIZE <= length b -> iv c' = take AES_BLOCK_SIZE b) /\
  (key = None -> fst r = true /\ ks c' = ks c) /\
  (forall k, key = Some k ->
     (fst r, ks c') = ciph_init (PROV_AES_KEY_generic_init c v d) k (keylen c)).
Proof.
  intros d.
  destruct (generic_init_frame c v d)
    as (Hks & Hmode & Henc & Hbuf & Hbufsz & Hkl & Hpad & Hiv0 & Hiv1).
  assert (Hr : (if d then aes_einit c key v else aes_dinit c key v)
               = match key with
                 | Some k =>
                     let '(s, t) := ciph_init (PROV_AES_KEY_generic_init c v d) k
                                      (keylen (PROV_AES_KEY_generic_init c v d)) in
                     (s, set_ks (PROV_AES_KEY_generic_init c v d) t)
                 | None => (true, PROV_AES_KEY_generic_init c v d)
                 end).
  { by destruct d. }
  cbv zeta. rewrite Hr. clear Hr.
  assert (Hwf : forall t, wf c -> wf (set_ks (PROV_AES_KEY_generic_init c v d) t)).
  { intros t [? ?]. split.
    - change (length (buf (PROV_AES_KEY_generic_init c v d)) = AES_BLOCK_SIZE).
      by rewrite Hbuf.
    - change (bufsz (PROV_AES_KEY_generic_init c v d) <= AES_BLOCK_SIZE).
      by rewrite Hbufsz. }
  destruct key as [k|].
  - rewrite Hkl. destruct (ciph_init _ k (keylen c)) as [s t] eqn:Hci. simpl.
    split_and!; try done; [apply Hwf|]. by intros k' [= <-].
  - simpl. split_and!; try done.
    intros [? ?]. split; [by rewrite Hbuf | by rewrite Hbufsz].
Qed.

(** X11: [set_params] changes nothing but the padding flag, and nothing at
    all when it fails.  A value [v] that converts is stored as [v != 0], so
    that a later [get_params] passes 0 or 1 to the located parameter, and
    setting the same parameters again changes nothing more.  [get_params]
    replaces at most the located parameter of the array. *)
Theorem set_then_get_params c (params qs : list P) :
  let r := aes_set_params c params in
  let c' := snd r in
  (ks c' = ks c /\ mode c' = mode c /\ enc c' = enc c /\ iv c' = iv c /\
   buf c' = buf c /\ bufsz c' = bufsz c /\ keylen c' = keylen c) /\
  (fst r = false -> c' = c) /\
  (forall i p v,
     OSSL_PARAM_locate params OSSL_CIPHER_PARAM_PADDING = Some (i, p) ->
     OSSL_PARAM_get_int p = Some v ->
     fst r = true /\ pad c' = negb (v =? 0)%Z /\
     aes_set_params c' params = r /\
     forall j q,
       OSSL_PARAM_locate qs OSSL_CIPHER_PARAM_PADDING = Some (j, q) ->
       aes_get_params c' qs
       = match OSSL_PARAM_set_uint q (if (v =? 0)%Z then 0 else 1)%Z with
         | Some q' => (true, <[j := q']> qs)
         | None => (false, qs)
         end) /\
  (length (snd (aes_get_params c qs)) = length qs /\
   forall j q,
     OSSL_PARAM_locate qs OSSL_CIPHER_PARAM_PADDING = Some (j, q) ->
     forall j', j' <> j -> snd (aes_get_params c qs) !! j' = qs !! j').
Proof.
  cbv zeta. unfold aes_set_params, aes_get_params. split_and!.
  1-7: destruct (OSSL_PARAM_locate params _) as [[i p]|]; [|done];
       by destruct (OSSL_PARAM_get_int p).
  - destruct (OSSL_PARAM_locate params _) as [[i p]|]; [|done].
    by destruct (OSSL_PARAM_get_int p).
  - intros i p v -> ->. simpl. split_and!; [done | done | done |].
    intros j q ->. by destruct (v =? 0)%Z.
  - destruct (OSSL_PARAM_locate qs _) as [[j q]|]; [|done].
    destruct (OSSL_PARAM_set_uint q _); [|done]. simpl. apply length_insert.
  - intros j q -> j' Hne.
    destruct (OSSL_PARAM_set_uint q _); [|done]. simpl.
    by apply list_lookup_insert_ne.
Qed.

(** X12: switching padding off while a decrypt stream holds a block back.
    The flag alone changes; the next [update], even with no input, hands
    the held block to the transform, and [final] emits the whole
    transformed block, padding bytes included, without validating it. *)
Theorem padding_off_releases_held_block c (params : list P) i p :
  wf c -> enc c = false -> pad c = true -> bufsz c = AES_BLOCK_SIZE ->
  OSSL_PARAM_locate params OSSL_CIPHER_PARAM_PADDING = Some (i, p) ->
  OSSL_PARAM_get_int p = Some 0%Z ->
  let c' := snd (aes_set_params c params) in
  c' = set_pad c false /\
  (forall inp, exists l, log_of (aes_update inp (enter c')) = pending c :: l) /\
  (forall pt, ciph_cipher c' (pending c) = Some pt ->
     aes_final (enter c')
     = (Some tt, mk_call (set_bufsz (set_buf c' pt) 0) pt
                         (Some AES_BLOCK_SIZE) [pending c])).
Proof.
  intros Hwf He Hp Hfull Hloc Hget c'.
  assert (Hc' : c' = set_pad c false).
  { unfold c', aes_set_params. by rewrite Hloc, Hget. }
  assert (Hwf' : wf c') by (by rewrite Hc').
  assert (Hpend : pending c' = pending c) by (by rewrite Hc').
  split_and!; [done | |].
  - intros inp. rewrite <- Hpend. apply flush_rule; [done | by rewrite Hc' |].
    right; right. by rewrite Hc'.
  - intros pt Hpt.
    destruct (aes_final_decrypt_cases c' Hwf') as (_ & _ & _ & Hcases);
      [by rewrite Hc'|].
    specialize (Hcases ltac:(by rewrite Hc')).
    rewrite Hpend, Hpt in Hcases. destruct Hcases as (Hnopad & _).
    apply Hnopad. by rewrite Hc'.
Qed.


Lemma api_step_config c (a : api_call P) :
  wf c -> length (iv c) = AES_BLOCK_SIZE ->
  let c' := api_step c a in
  mode c' = mode c /\ keylen c' = keylen c /\ length (iv c') = AES_BLOCK_SIZE.
Proof.
  intros Hwf Hiv.
  assert (Hinit : forall key v d,
            let c' := snd (if d : bool then aes_einit c key v else aes_dinit c key v) in
            mode c' = mode c /\ keylen c' = keylen c /\ length (iv c') = AES_BLOCK_SIZE).
  { intros key v d.
    assert (Hg : let g := PROV_AES_KEY_generic_init c v d in
                 mode g = mode c /\ keylen g = keylen c /\ length (iv g) = AES_BLOCK_SIZE).
    { unfold PROV_AES_KEY_generic_init. destruct v as [b|]; simpl; [|done].
      split_and!; [done | done |]. rewrite length_memcpy; [done|].
      rewrite length_take. lia. }
    cbv zeta in Hg.
    destruct d; unfold aes_einit, aes_dinit; (destruct key as [k|]; [|exact Hg]);
      destruct (ciph_init _ _ _); exact Hg. }
  destruct a as [key v|key v|inp| |params|params]; simpl.
  - exact (Hinit key v true).
  - exact (Hinit key v false).
  - by destruct (aes_update_same_stream c inp Hwf) as (_ & -> & _ & -> & -> & _).
  - by destruct (aes_final_facts c Hwf) as ((_ & -> & _ & -> & -> & _) & _).
  - done.
  - unfold aes_set_params.
    destruct (OSSL_PARAM_locate _ _) as [[i p]|]; [|done].
    by destruct (OSSL_PARAM_get_int p).
Qed.

(** X13: the configuration chosen by the constructor is never changed by
    any later call: in every reachable context the mode is ECB, the key
    length is that of one of the three tables, and the IV array keeps its
    16 bytes. *)
Theorem configuration_immutable c :
  reachable (P := P) c ->
  mode c = EVP_CIPH_ECB_MODE /\
  (keylen c = key_length_128 \/ keylen c = key_length_192 \/ keylen c = key_length_256) /\
  length (iv c) = AES_BLOCK_SIZE.
Proof.
  intros Hreach.
  assert (Hall : wf c /\ mode c = EVP_CIPH_ECB_MODE /\
                 (keylen c = key_length_128 \/ keylen c = key_length_192 \/
                  keylen c = key_length_256) /\
                 length (iv c) = AES_BLOCK_SIZE); [|tauto].
  induction Hreach as [bits Hbits|c a _ (Hwf & Hmode & Hkl & Hiv)].
  - split; [split; [apply length_replicate | simpl; lia]|].
    split; [done|]. split; [|apply length_replicate].
    simpl in Hbits. destruct Hbits as [<- | [<- | [<- | []]]]; simpl; tauto.
  - destruct (api_step_config c a Hwf Hiv) as (Hm & Hk & Hi).
    split; [by apply api_step_wf|]. by rewrite Hm, Hk.
Qed.

End init_more.

(** ** The further properties on concrete runs *)

Lemma toy_enc_raw_wf : wf toy_enc_raw.
Proof. split; vm_compute; [reflexivity | lia]. Qed.

Lemma toy_dec_raw_wf : wf toy_dec_raw.
Proof. split; vm_compute; [reflexivity | lia]. Qed.

Lemma toy_partial_wf : wf toy_partial.
Proof. split; vm_compute; [reflexivity | lia]. Qed.

Lemma toy_keyed_enc (c : PROV_AES_KEY bool) (x : list byte) :
  ks c = true -> enc c = true -> aligned x -> ciph_cipher c x = Some (map toy_flip x).
Proof. intros Hk _ _. by apply toy_cipher_keyed. Qed.

Lemma toy_keyed_dec (c : PROV_AES_KEY bool) (x : list byte) :
  ks c = true -> enc c = false -> aligned x -> ciph_cipher c x = Some (map toy_flip x).
Proof. intros Hk _ _. by apply toy_cipher_keyed. Qed.

Lemma toy_flip_app_aligned (x y : list byte) :
  aligned x -> aligned y -> map toy_flip (x ++ y) = map toy_flip x ++ map toy_flip y.
Proof. intros _ _. apply map_app. Qed.

(** Twenty-one bytes in: sixteen bytes out, and [*outl] says so. *)
Lemma update_output_bound_witness :
  wf toy_enc /\
  length (out_of (aes_update (hello ++ toy_block) (enter toy_enc)))
    <= bufsz toy_enc + length (hello ++ toy_block) /\
  outl_of (aes_update (hello ++ toy_block) (enter toy_enc))
    = Some (length (out_of (aes_update (hello ++ toy_block) (enter toy_enc)))).
Proof.
  split; [exact toy_enc_wf|].
  destruct (update_output_bound (H := toy_cipher) toy_enc (hello ++ toy_block)
              toy_enc_wf) as (Hb & _ & Hs & _).
  split; [exact Hb | exact (Hs eq_refl)].
Defined.

(** Ten bytes on a context without key: no transform call, no failure. *)
Lemma update_below_one_block_witness :
  wf toy_unkeyed /\ bufsz toy_unkeyed + length hello < AES_BLOCK_SIZE /\
  retval (aes_update hello (enter toy_unkeyed)) = true /\
  log_of (aes_update hello (enter toy_unkeyed)) = [] /\
  pending (ctx_of (aes_update hello (enter toy_unkeyed))) = pending toy_unkeyed ++ hello.
Proof.
  assert (Hlt : bufsz toy_unkeyed + length hello < AES_BLOCK_SIZE) by (vm_compute; lia).
  split; [exact toy_unkeyed_wf|]. split; [exact Hlt|].
  destruct (update_below_one_block (H := toy_cipher) toy_unkeyed hello
              toy_unkeyed_wf Hlt) as (Hok & Hlog & _ & _ & Hpend & _).
  split; [exact Hok|]. split; [exact Hlog | exact Hpend].
Defined.

(** Two blocks on a padded decrypt stream: one is flushed, one is held. *)
Lemma update_pending_count_witness :
  wf toy_dec /\
  retval (aes_update (toy_block ++ toy_block) (enter toy_dec)) = true /\
  bufsz (ctx_of (aes_update (toy_block ++ toy_block) (enter toy_dec)))
    = (bufsz toy_dec + length (toy_block ++ toy_block) - 1) mod AES_BLOCK_SIZE + 1.
Proof.
  split; [exact toy_dec_wf|]. split; [reflexivity|].
  destruct (update_pending_count (H := toy_cipher) toy_dec (toy_block ++ toy_block)
              toy_dec_wf eq_refl) as (_ & _ & Hheld).
  apply Hheld; [reflexivity | vm_compute; lia].
Defined.

(** Twenty-one bytes as two chunks or as one. *)
Lemma update_chunking_irrelevant_witness :
  wf toy_enc /\
  exists c1 c2 l1 l2,
    stream_updates toy_enc [hello; toy_block]
      = Some (c1, map toy_flip (take 16 (hello ++ toy_block)), l1) /\
    stream_updates toy_enc [hello ++ toy_block]
      = Some (c2, map toy_flip (take 16 (hello ++ toy_block)), l2) /\
    pending c1 = drop 16 (hello ++ toy_block) /\
    pending c2 = drop 16 (hello ++ toy_block) /\
    bufsz c1 = bufsz c2.
Proof.
  split; [exact toy_enc_wf|].
  destruct (update_chunking_irrelevant (H := toy_cipher) true true (map toy_flip)
              toy_keyed_enc toy_flip_app_aligned
              toy_enc [hello; toy_block] [hello ++ toy_block]
              toy_enc_wf) as (c1 & c2 & l1 & l2 & H1 & H2 & H3 & H4 & H5);
    [vm_compute; lia | reflexivity | reflexivity | reflexivity |].
  exists c1, c2, l1, l2.
  split; [exact H1|]. split; [exact H2|]. split; [exact H3|].
  split; [exact H4 | exact H5].
Defined.

(** Two blocks without padding: two blocks of ciphertext, and back. *)
Lemma unpadded_round_trip_witness :
  wf toy_enc_raw /\ pad toy_enc_raw = false /\ aligned (concat [toy_block; toy_block]) /\
  exists cipher l,
    stream_run toy_enc_raw [toy_block; toy_block] = Some (cipher, l) /\
    length cipher = length (concat [toy_block; toy_block]) /\
    forall chunks', concat chunks' = cipher ->
      exists l', stream_run toy_dec_raw chunks' = Some (concat [toy_block; toy_block], l').
Proof.
  assert (Hal : aligned (concat [toy_block; toy_block])) by (vm_compute; reflexivity).
  split; [exact toy_enc_raw_wf|]. split; [reflexivity|]. split; [exact Hal|].
  apply (unpadded_round_trip (H := toy_cipher) true true (map toy_flip) (map toy_flip)
           toy_keyed_enc toy_keyed_dec toy_flip_app_aligned toy_flip_app_aligned
           (fun x _ => toy_flip_inverse x)
           toy_enc_raw toy_dec_raw [toy_block; toy_block]);
    first [exact toy_enc_raw_wf | exact toy_dec_raw_wf | exact Hal | reflexivity].
Defined.

(** Five bytes without padding cannot be finished. *)
Lemma unpadded_rejects_partial_block_witness :
  wf toy_enc_raw /\ ~ aligned (concat [hello]) /\
  stream_run toy_enc_raw [hello] = None.
Proof.
  assert (Hna : ~ aligned (concat [hello])).
  { intros Hal. vm_compute in Hal. discriminate. }
  split; [exact toy_enc_raw_wf|]. split; [exact Hna|].
  apply (unpadded_rejects_partial_block (H := toy_cipher) toy_enc_raw [hello]);
    [exact toy_enc_raw_wf | reflexivity | reflexivity | exact Hna].
Defined.

(** A ciphertext of twenty-one bytes is rejected. *)
Lemma decrypt_rejects_truncated_witness :
  wf toy_dec /\ ~ aligned (concat [toy_block; hello]) /\
  stream_run toy_dec [toy_block; hello] = None.
Proof.
  assert (Hna : ~ aligned (concat [toy_block; hello])).
  { intros Hal. vm_compute in Hal. discriminate. }
  split; [exact toy_dec_wf|]. split; [exact Hna|].
  apply (decrypt_rejects_truncated (H := toy_cipher) toy_dec [toy_block; hello]);
    [exact toy_dec_wf | reflexivity | reflexivity | reflexivity | right; exact Hna].
Defined.

(** [final] on five pending bytes: one transform call, one block out. *)
Lemma final_output_bound_witness :
  wf toy_partial /\
  length (out_of (aes_final (enter toy_partial))) <= AES_BLOCK_SIZE /\
  length (log_of (aes_final (enter toy_partial))) <= 1 /\
  bufsz (ctx_of (aes_final (enter toy_partial))) = 0.
Proof.
  split; [exact toy_partial_wf|].
  destruct (final_output_bound (H := toy_cipher) toy_partial toy_partial_wf)
    as (_ & Hout & Hlog & _ & Hok & _).
  split; [exact Hout|]. split; [exact Hlog|].
  exact (proj2 (Hok eq_refl)).
Defined.

(** A second [final] on an encrypt context emits a block of padding. *)
Lemma final_called_twice_witness :
  wf toy_partial /\ retval (aes_final (enter toy_partial)) = true /\
  log_of (aes_final (enter (ctx_of (aes_final (enter toy_partial)))))
    = [replicate AES_BLOCK_SIZE (byte_of_nat AES_BLOCK_SIZE)].
Proof.
  split; [exact toy_partial_wf|]. split; [reflexivity|].
  destruct (final_called_twice (H := toy_cipher) toy_partial toy_partial_wf eq_refl)
    as (Henc & _ & _).
  exact (proj1 (Henc eq_refl eq_refl)).
Defined.

(** An [einit] with a new IV on a context that holds a block back. *)
Lemma init_keeps_stream_state_witness :
  wf toy_held /\
  bufsz (snd (aes_einit toy_held None (Some toy_block))) = bufsz toy_held /\
  wf (snd (aes_einit toy_held None (Some toy_block))) /\
  iv (snd (aes_einit toy_held None (Some toy_block))) = take AES_BLOCK_SIZE toy_block /\
  fst (aes_einit toy_held None (Some toy_block)) = true.
Proof.
  split; [exact toy_held_wf|].
  destruct (init_keeps_stream_state (H := toy_cipher) toy_held None (Some toy_block) true)
    as (_ & Hbufsz & _ & _ & _ & _ & Hwf & _ & Hiv & Hnull & _).
  split; [exact Hbufsz|]. split; [exact (Hwf toy_held_wf)|].
  split; [|exact (proj1 (Hnull eq_refl))].
  apply (Hiv toy_block eq_refl); [reflexivity | vm_compute; lia].
Defined.

(** Padding set to 7 reads back as 1. *)
Lemma set_then_get_params_witness :
  OSSL_PARAM_locate [toy_int "padding" 7] OSSL_CIPHER_PARAM_PADDING
    = Some (0, toy_int "padding" 7) /\
  pad (snd (aes_set_params toy_enc_raw [toy_int "padding" 7])) = true /\
  aes_get_params (snd (aes_set_params toy_enc_raw [toy_int "padding" 7])) toy_param_list
    = (true, <[1 := toy_int "padding" 1]> toy_param_list).
Proof.
  split; [reflexivity|].
  destruct (set_then_get_params (H0 := toy_params) toy_enc_raw
              [toy_int "padding" 7] toy_param_list) as (_ & _ & Hset & _).
  destruct (Hset 0 (toy_int "padding" 7) 7%Z eq_refl eq_refl) as (_ & Hpad & _ & Hget).
  split; [exact Hpad|].
  exact (Hget 1 (toy_int "padding" 0) eq_refl).
Defined.

(** Padding switched off on a held block: [final] emits all 16 bytes. *)
Lemma padding_off_releases_held_block_witness :
  wf toy_held /\ bufsz toy_held = AES_BLOCK_SIZE /\
  outl_of (aes_final (enter (snd (aes_set_params toy_held [toy_int "padding" 0]))))
    = Some AES_BLOCK_SIZE /\
  out_of (aes_final (enter (snd (aes_set_params toy_held [toy_int "padding" 0]))))
    = map toy_flip toy_block.
Proof.
  split; [exact toy_held_wf|]. split; [reflexivity|].
  destruct (padding_off_releases_held_block (H := toy_cipher) (H0 := toy_params)
              toy_held [toy_int "padding" 0] 0 (toy_int "padding" 0)
              toy_held_wf eq_refl eq_refl eq_refl eq_refl eq_refl)
    as (_ & _ & Hfinal).
  rewrite (Hfinal (map toy_flip toy_block) eq_refl).
  split; reflexivity.
Defined.

(** The configuration after a change of direction in mid-stream. *)
Lemma configuration_immutable_witness :
  reachable (P := toy_param) toy_redirected /\
  mode toy_redirected = EVP_CIPH_ECB_MODE /\
  keylen toy_redirected = key_length_128.
Proof.
  assert (Hreach : reachable (P := toy_param) toy_redirected).
  { exact (reach_step _ (call_einit None None)
             (reach_step _ (call_update toy_block)
                (reach_step _ (call_dinit (Some toy_key) None)
                   (reach_new 128 (or_introl eq_refl))))). }
  split; [exact Hreach|].
  destruct (configuration_immutable (P := toy_param) toy_redirected Hreach)
    as (Hmode & _ & _).
  split; [exact Hmode | reflexivity].
Defined.
